(** * webpage-summarizer-bot: the event-processing pipeline of [app.py]

    A shallow embedding of [src/app.py]: the retry decorator, the two
    decorated API calls, [format_reply], [summerize_text], [process_link]
    and [handle_message_events], followed by the properties of the
    specification that concern them.

    Conventions of the embedding.
    - A Python [str] is a [string] holding its UTF-8 bytes.
    - Python exceptions are values of [exn]; a computation that may raise
      returns [exn + A].
    - [async] functions are run to completion one after the other: the
      world is threaded explicitly and every call to an external service
      is appended to a trace.  The outcome of an external call is a
      function of the trace so far, which covers every deterministic
      environment.
    - Numbers that the source computes with ([wait_time], the cache
      clock) are rationals; floating-point rounding is not modelled.
    - [logger.info] is not modelled; the [logger.error] of the retry
      decorator is an event of the trace. *)

From Stdlib Require Import String Ascii List Bool Arith ZArith QArith Lia Lqa Sorted.
From Stdlib Require Import DecimalString.
Import ListNotations.
Close Scope Q_scope.
Local Open Scope nat_scope.
Local Open Scope string_scope.
Local Open Scope list_scope.

Set Implicit Arguments.

(** ** Python strings *)

Definition nl : string := String (ascii_of_nat 10) EmptyString.
Definition dq : string := String (ascii_of_nat 34) EmptyString.

Definition string_rev (s : string) : string :=
  string_of_list_ascii (rev (list_ascii_of_string s)).

(** [str.isspace] on the characters of one byte: U+0009..U+000D,
    U+001C..U+0020. *)
Definition space1 (a : nat) : bool :=
  (((9 <=? a) && (a <=? 13)) || ((28 <=? a) && (a <=? 32)))%nat.

(** ... of two bytes: U+0085 and U+00A0. *)
Definition space2 (a b : nat) : bool :=
  ((a =? 194) && ((b =? 133) || (b =? 160)))%nat.

(** ... of three bytes: U+1680, U+2000..U+200A, U+2028, U+2029, U+202F,
    U+205F and U+3000. *)
Definition space3 (a b c : nat) : bool :=
  (((a =? 225) && (b =? 154) && (c =? 128))
   || ((a =? 226) && (b =? 128)
       && (((128 <=? c) && (c <=? 138)) || (c =? 168) || (c =? 169) || (c =? 175)))
   || ((a =? 226) && (b =? 129) && (c =? 159))
   || ((a =? 227) && (b =? 128) && (c =? 128)))%nat.

(** Drops the white space a string starts with.  [fwd] tells in which
    order the bytes of a character come: first to last, or last to first
    when the string has been reversed. *)
Fixpoint drop_space (fwd : bool) (s : string) : string :=
  match s with
  | EmptyString => s
  | String a s1 =>
      if space1 (nat_of_ascii a) then drop_space fwd s1
      else match s1 with
           | EmptyString => s
           | String b s2 =>
               if (if fwd then space2 (nat_of_ascii a) (nat_of_ascii b)
                   else space2 (nat_of_ascii b) (nat_of_ascii a))
               then drop_space fwd s2
               else match s2 with
                    | EmptyString => s
                    | String c s3 =>
                        if (if fwd
                            then space3 (nat_of_ascii a) (nat_of_ascii b) (nat_of_ascii c)
                            else space3 (nat_of_ascii c) (nat_of_ascii b) (nat_of_ascii a))
                        then drop_space fwd s3
                        else s
                    end
           end
  end.

(** [s.strip()] *)
Definition strip (s : string) : string :=
  string_rev (drop_space false (string_rev (drop_space true s))).

(** [s.startswith(p)] *)
Definition startswith (s p : string) : bool := String.prefix p s.

(** [sub in s] *)
Fixpoint substring_of (sub s : string) : bool :=
  String.prefix sub s
  || match s with
     | EmptyString => false
     | String _ s' => substring_of sub s'
     end.

(** [x or default] on an optional string. *)
Definition or_default (x : option string) (default : string) : string :=
  match x with
  | Some (String a s) => String a s
  | _ => default
  end.

(** The truth value of [None] or a string. *)
Definition truthy (x : option string) : bool :=
  match x with
  | Some (String _ _) => true
  | _ => false
  end.

(** [c in s] for a character. *)
Fixpoint has_char (c : ascii) (s : string) : bool :=
  match s with
  | EmptyString => false
  | String a s' => Ascii.eqb a c || has_char c s'
  end.

(** ** URLs: the part of [urllib.parse] that the program uses

    [urlparse], [parse_qs] and [unquote] as CPython has them since
    version 3.10 ([&] the only separator of fields; tabs and line ends
    removed from a URL), with the defaults of their keyword arguments;
    none of them raises on what [process_link] hands to it. *)

(** [s.split(c, 1)[0]]: what comes before the first [c], or all of [s]. *)
Fixpoint before_char (c : ascii) (s : string) : string :=
  match s with
  | EmptyString => EmptyString
  | String a s' => if Ascii.eqb a c then EmptyString else String a (before_char c s')
  end.

(** [s.split(c, 1)[1]]: what comes after the first [c], if there is one. *)
Fixpoint after_char (c : ascii) (s : string) : option string :=
  match s with
  | EmptyString => None
  | String a s' => if Ascii.eqb a c then Some s' else after_char c s'
  end.

(** [s.split(c)] *)
Fixpoint split_on (c : ascii) (s : string) : list string :=
  match s with
  | EmptyString => [EmptyString]
  | String a s' =>
      if Ascii.eqb a c then EmptyString :: split_on c s'
      else match split_on c s' with
           | x :: xs => String a x :: xs
           | [] => [String a EmptyString]
           end
  end.

(** The tab, the line feed and the carriage return, which [urlsplit]
    removes from a URL. *)
Definition is_unsafe (a : ascii) : bool :=
  ((nat_of_ascii a =? 9) || (nat_of_ascii a =? 10) || (nat_of_ascii a =? 13))%nat.

Fixpoint remove_unsafe (s : string) : string :=
  match s with
  | EmptyString => EmptyString
  | String a s' => if is_unsafe a then remove_unsafe s' else String a (remove_unsafe s')
  end.

(** [urlparse(url).query], for a URL with a plain scheme and host, as
    the redirector's prefix makes them: the unsafe characters go, the
    fragment is split off at the first [#], and the query is what
    follows the first [?]. *)
Definition urlparse_query (url : string) : string :=
  match after_char "?" (before_char "#" (remove_unsafe url)) with
  | Some query => query
  | None => EmptyString
  end.

(** [s.replace("+", " ")] *)
Fixpoint plus_to_space (s : string) : string :=
  match s with
  | EmptyString => EmptyString
  | String a s' => String (if Ascii.eqb a "+" then " "%char else a) (plus_to_space s')
  end.

(** The value of a hexadecimal digit. *)
Definition hex_value (a : ascii) : option nat :=
  let n := nat_of_ascii a in
  (if (48 <=? n) && (n <=? 57) then Some (n - 48)
   else if (65 <=? n) && (n <=? 70) then Some (n - 55)
   else if (97 <=? n) && (n <=? 102) then Some (n - 87)
   else None)%nat.

(** Decoding of UTF-8 with [errors="replace"].  The decoder is in the
    middle of a character when [need] bytes are still to come, the next
    of them between [lo] and [hi]; [pending] holds the bytes of the
    character so far, last first. *)
Record Utf8State : Type := mkUtf8 {
  utf8_need : nat;
  utf8_lo : nat;
  utf8_hi : nat;
  utf8_pending : list ascii
}.

Definition utf8_idle : Utf8State := mkUtf8 0 0 0 [].

(** U+FFFD, the replacement character. *)
Definition replacement : list ascii :=
  [ascii_of_nat 239; ascii_of_nat 191; ascii_of_nat 189].

(** A byte met between two characters: what is put out, and the state
    after it. *)
Definition utf8_start (b : ascii) : list ascii * Utf8State :=
  let n := nat_of_ascii b in
  (if n <? 128 then ([b], utf8_idle)
   else if n <? 194 then (replacement, utf8_idle)
   else if n <? 224 then ([], mkUtf8 1 128 191 [b])
   else if n =? 224 then ([], mkUtf8 2 160 191 [b])
   else if n =? 237 then ([], mkUtf8 2 128 159 [b])
   else if n <? 240 then ([], mkUtf8 2 128 191 [b])
   else if n =? 240 then ([], mkUtf8 3 144 191 [b])
   else if n <? 244 then ([], mkUtf8 3 128 191 [b])
   else if n =? 244 then ([], mkUtf8 3 128 143 [b])
   else (replacement, utf8_idle))%nat.

Fixpoint utf8_replace (st : Utf8State) (bs : list ascii) : list ascii :=
  match bs with
  | [] => match utf8_need st with
          | O => []
          | S _ => replacement
          end
  | b :: bs' =>
      match utf8_need st with
      | O => let (out, st') := utf8_start b in out ++ utf8_replace st' bs'
      | S need' =>
          if ((utf8_lo st <=? nat_of_ascii b) && (nat_of_ascii b <=? utf8_hi st))%nat then
            match need' with
            | O => rev (b :: utf8_pending st) ++ utf8_replace utf8_idle bs'
            | S _ => utf8_replace (mkUtf8 need' 128 191 (b :: utf8_pending st)) bs'
            end
          else
            let (out, st') := utf8_start b in
            replacement ++ out ++ utf8_replace st' bs'
      end
  end.

(** [bytes(run).decode("utf-8", "replace")] for the bytes of a run,
    last first. *)
Definition decode_run (run : list ascii) : string :=
  string_of_list_ascii (utf8_replace utf8_idle (rev run)).

(** The loop of [unquote]: runs of ASCII characters have their [%xx]
    escapes turned into bytes and are decoded on their own; the other
    characters are kept. *)
Fixpoint unquote_runs (run : list ascii) (s : string) : string :=
  match s with
  | EmptyString => decode_run run
  | String a s1 =>
      if (128 <=? nat_of_ascii a)%nat
      then (decode_run run ++ String a (unquote_runs [] s1))%string
      else if Ascii.eqb a "%" then
        match s1 with
        | String h1 (String h2 s3) =>
            match hex_value h1, hex_value h2 with
            | Some x, Some y => unquote_runs (ascii_of_nat (16 * x + y) :: run) s3
            | _, _ => unquote_runs (a :: run) s1
            end
        | _ => unquote_runs (a :: run) s1
        end
      else unquote_runs (a :: run) s1
  end.

(** [urllib.parse.unquote(s)] *)
Definition unquote (s : string) : string :=
  if has_char "%" s then unquote_runs [] s else s.

(** [urllib.parse.parse_qsl(qs)], with its defaults: fields without
    [=] and fields with a blank value are left out. *)
Definition parse_qsl (qs : string) : list (string * string) :=
  flat_map
    (fun name_value =>
       match name_value with
       | EmptyString => []
       | _ =>
           match after_char "=" name_value with
           | None => []
           | Some EmptyString => []
           | Some value =>
               [(unquote (plus_to_space (before_char "=" name_value)),
                 unquote (plus_to_space value))]
           end
       end)
    (match qs with
     | EmptyString => []
     | _ => split_on "&" qs
     end).

(** [parsed_result[name].append(value)], or a new entry. *)
Fixpoint params_add (params : list (string * list string)) (name value : string)
  : list (string * list string) :=
  match params with
  | [] => [(name, [value])]
  | (k, vs) :: params' =>
      if String.eqb k name then (k, vs ++ [value]) :: params'
      else (k, vs) :: params_add params' name value
  end.

(** [urllib.parse.parse_qs(qs)] *)
Definition parse_qs (qs : string) : list (string * list string) :=
  fold_left (fun params nv => params_add params (fst nv) (snd nv)) (parse_qsl qs) [].

(** ** Exceptions *)

Inductive ExnKind : Type :=
| OpenAIError
| SlackApiError
| RequestException
| JSONDecodeError
| AttributeError
| KeyError
| IndexError
| OtherError.

Record exn : Type := Exn { exn_kind : ExnKind; exn_msg : string }.

Definition ExnKind_eqb (a b : ExnKind) : bool :=
  match a, b with
  | OpenAIError, OpenAIError
  | SlackApiError, SlackApiError
  | RequestException, RequestException
  | JSONDecodeError, JSONDecodeError
  | AttributeError, AttributeError
  | KeyError, KeyError
  | IndexError, IndexError
  | OtherError, OtherError => true
  | _, _ => false
  end.

(** [except (K,) as e]: the handler matches the exceptions of kind [K]. *)
Definition isinstance (k : ExnKind) (e : exn) : bool :=
  ExnKind_eqb (exn_kind e) k.

(** ** JSON values, as [json.loads] returns them *)

#[local] Set Warnings "-register-all".

Inductive json : Type :=
| JNull
| JBool (b : bool)
| JInt (z : Z)
| JFloat (literal : string)
| JString (s : string)
| JArray (items : list json)
| JObject (members : list (string * json)).

(** [d.get(key)] *)
Fixpoint dict_get (d : list (string * json)) (key : string) : option json :=
  match d with
  | [] => None
  | (k, v) :: d' => if String.eqb k key then Some v else dict_get d' key
  end.

(** [key in d] *)
Definition dict_has (d : list (string * json)) (key : string) : bool :=
  match dict_get d key with Some _ => true | None => false end.

(** [v is not None]; a JSON [null] is [None]. *)
Definition is_not_None (v : option json) : bool :=
  match v with
  | None | Some JNull => false
  | Some _ => true
  end.

(** [v != "ja"]-style comparison of a looked-up value with a string. *)
Definition differs_from (v : option json) (s : string) : bool :=
  match v with
  | Some (JString s') => negb (String.eqb s' s)
  | _ => true
  end.

(** ** External calls and the trace *)

(** Keyword arguments of [client.chat_postMessage]. *)
Record PostArgs : Type := mkPost {
  post_channel : string;
  post_text : string;
  post_thread_ts : string;
  post_reply_broadcast : bool
}.

Inductive Call : Type :=
| OpenAIChat (prompt : string)
| SlackPost (p : PostArgs)
| HttpGet (url : string).

Inductive Event : Type :=
| EvAck
| EvCall (c : Call) (raised : option exn)
| EvLogError (e : exn) (wait_time : Q)
| EvSleep (wait_time : Q).

Definition Trace := list Event.

(** ** The deduplication cache *)

(** Modelled from the spec: [cachetools.TTLCache], a library the source
    imports.  A bounded, time-expiring set: every entry carries an
    absolute expiry time; an entry past its expiry is not a member; when
    the capacity bound is exceeded the oldest entry by insertion order
    is evicted.  [cache_links] lists the entries oldest first. *)
Record TTLCache : Type := mkCache {
  cache_maxsize : nat;
  cache_ttl : Q;
  cache_links : list (string * Q)
}.

Fixpoint link_expires (l : list (string * Q)) (key : string) : option Q :=
  match l with
  | [] => None
  | (k, t) :: l' => if String.eqb k key then Some t else link_expires l' key
  end.

Definition Qlt_bool (a b : Q) : bool := negb (Qle_bool b a).

(** [key in cache]: present and not yet expired. *)
Definition cache_contains (now : Q) (c : TTLCache) (key : string) : bool :=
  match link_expires (cache_links c) key with
  | Some expires => Qlt_bool now expires
  | None => false
  end.

(** Removal of the entries that expired, from the oldest on. *)
Fixpoint expire (now : Q) (l : list (string * Q)) : list (string * Q) :=
  match l with
  | [] => []
  | (k, t) :: l' => if Qlt_bool now t then l else expire now l'
  end.

Definition unlink (key : string) (l : list (string * Q)) : list (string * Q) :=
  filter (fun kt => negb (String.eqb (fst kt) key)) l.

(** [cache[key] = True]: expired entries go, then the oldest entries
    until there is room for one more, and the key enters as the newest
    entry with a fresh expiry. *)
Definition cache_setitem (now : Q) (c : TTLCache) (key : string) : TTLCache :=
  let l1 := expire now (cache_links c) in
  let l2 := match link_expires l1 key with
            | Some _ => l1
            | None => skipn (length l1 + 1 - cache_maxsize c) l1
            end in
  mkCache (cache_maxsize c) (cache_ttl c)
          (unlink key l2 ++ [(key, (now + cache_ttl c)%Q)]).

(** [processed_ids = TTLCache(maxsize=100, ttl=60)] *)
Definition processed_ids_initial : TTLCache := mkCache 100 (60 # 1) [].

(** ** Computations: a world, and a result or an exception *)

Record World : Type := mkWorld {
  trace : Trace;
  processed_ids : TTLCache
}.

Definition M (A : Type) : Type := World -> (exn + A) * World.

Definition ret {A} (a : A) : M A := fun w => (inr a, w).
Definition raise {A} (e : exn) : M A := fun w => (inl e, w).
Definition bind {A B} (m : M A) (k : A -> M B) : M B :=
  fun w => match m w with
           | (inr a, w') => k a w'
           | (inl e, w') => (inl e, w')
           end.
Definition lift {A} (r : exn + A) : M A := fun w => (r, w).

Declare Scope comp_scope.
Delimit Scope comp_scope with comp.
Notation "x <- m ;; k" := (bind m (fun x => k))
  (at level 61, m at next level, right associativity) : comp_scope.
Notation "m ;;; k" := (bind m (fun _ => k))
  (at level 61, right associativity) : comp_scope.

(** [for x in xs: await body(x)] *)
Fixpoint for_each {X} (xs : list X) (body : X -> M unit) : M unit :=
  match xs with
  | [] => ret tt
  | x :: xs' => (body x ;;; for_each xs' body)%comp
  end.

Definition emit (ev : Event) : M unit :=
  fun w => (inr tt, mkWorld (trace w ++ [ev]) (processed_ids w)).

(** An awaited call to an external service: the service answers after
    the history so far, and the call is recorded with its outcome. *)
Definition await {A} (c : Call) (func : Trace -> exn + A) : M A :=
  fun w => let r := func (trace w) in
           (r, mkWorld (trace w ++ [EvCall c (match r with
                                              | inl e => Some e
                                              | inr _ => None
                                              end)])
                       (processed_ids w)).

(** ** The retry decorator (app.py, lines 31-49)

    The program is started as a script, so that the [import asyncio] of
    its last lines has run before any decorated call sleeps. *)

Section Retry.
Variable A : Type.
(** [exceptions]: the [isinstance] test of the [except] clause. *)
Variable exceptions : exn -> bool.
Variable total_tries : nat.
Variables initial_wait backoff_factor : Q.
(** The decorated operation: which call it makes, and what the
    service answers after a given history. *)
Variable call : Call.
Variable func : Trace -> exn + A.

(** [for i in range(total_tries)], with [n] iterations left and [i]
    the loop variable.  Falling off the loop returns [None]. *)
Fixpoint retry_loop (n i : nat) (wait_time : Q) : M (option A) :=
  match n with
  | O => ret None
  | S n' =>
      fun w =>
        match await call func w with
        | (inr a, w1) => (inr (Some a), w1)
        | (inl e, w1) =>
            if exceptions e then
              (emit (EvLogError e wait_time) ;;;
               if Nat.eqb i (total_tries - 1) then raise e
               else emit (EvSleep wait_time) ;;;
                    retry_loop n' (S i) (wait_time * backoff_factor)%Q)%comp w1
            else (inl e, w1)
        end
  end.

Definition retry : M (option A) := retry_loop total_tries 0 initial_wait.
End Retry.

(** ** External collaborators *)

Record FunctionCall : Type := mkFunctionCall {
  fc_name : string;
  fc_arguments : string
}.

Record Message : Type := mkMessage {
  msg_content : option string;
  msg_function_call : option FunctionCall
}.

(** A chat completion: [completion.choices[i].message]. *)
Record Completion : Type := mkCompletion { choices : list Message }.

Record Response : Type := mkResponse {
  status_code : Z;
  response_text : string
}.

(** The inbound chat event, [body["event"]]. *)
Record Item : Type := mkItem {
  item_type : option string;
  item_url : option string
}.

Record Element : Type := mkElement { el_elements : list Item }.

Record Block : Type := mkBlock { blk_elements : list Element }.

Record SlackEvent : Type := mkSlackEvent {
  ev_previous_message : option json;
  ev_channel : string;
  ev_event_ts : string;
  ev_ts : string;
  ev_blocks : list Block
}.

(** What the program calls and does not define: the two API clients,
    the HTTP client, the content extractor and the standard library's
    JSON decoder.  Each service answers after the history so far. *)
Record Env : Type := mkEnv {
  openai_create : string -> Trace -> exn + Completion;
  chat_postMessage : PostArgs -> Trace -> exn + unit;
  requests_get : string -> Trace -> exn + Response;
  (** [extractor.analyse(html); extractor.as_text()]: text and title *)
  extractor_as_text : string -> string * string;
  json_loads : string -> exn + json;
  (** [str(v)] of a value that is not a string *)
  py_str : json -> string
}.

Section Program.
Variable E : Env.

(** [@retry((OpenAIError,), total_tries=3, initial_wait=1, backoff_factor=2)] *)
Definition chat_completion_create (prompt : string) : M (option Completion) :=
  retry (isinstance OpenAIError) 3 (1 # 1) (2 # 1)
        (OpenAIChat prompt) (openai_create E prompt).

(** [@retry((SlackApiError,), total_tries=3, initial_wait=1, backoff_factor=2)] *)
Definition chat_post_message (p : PostArgs) : M (option unit) :=
  retry (isinstance SlackApiError) 3 (1 # 1) (2 # 1)
        (SlackPost p) (chat_postMessage E p).

(** The rendering of a value inside an f-string. *)
Definition render (v : json) : string :=
  match v with
  | JString s => s
  | _ => py_str E v
  end.

(** [args.get(key, "???")], rendered. *)
Definition get_or_unknown (d : list (string * json)) (key : string) : string :=
  match dict_get d key with
  | Some v => render v
  | None => "???"
  end.

(** [format_reply] (lines 62-74).  Only a dict has [get]. *)
Definition format_reply (args : json) : exn + (string * option string) :=
  match args with
  | JObject d =>
      let summary := (nl ++ "*要約*" ++ nl ++ get_or_unknown d "summary" ++ nl)%string in
      let body :=
        if differs_from (dict_get d "language") "ja" && dict_has d "body_translated"
        then Some (nl ++ "*日本語翻訳*" ++ nl
                   ++ get_or_unknown d "body_translated" ++ nl)%string
        else None in
      inr (summary, body)
  | _ => inl (Exn AttributeError "object has no attribute 'get'")
  end.

(** The prompt of [summerize_text] (lines 78-103). *)
Definition unlines (ls : list string) : string :=
  fold_right (fun l acc => (l ++ nl ++ acc)%string) "" ls.

Definition format_field (name description : string) : string :=
  ("    " ++ dq ++ name ++ dq ++ ": " ++ dq ++ description ++ dq ++ ",")%string.

Definition prompt_of (text : string) : string :=
  unlines
    [ "### タスク";
      "";
      "あなたはWebページの要約&翻訳のプロフェッショナルです。";
      "";
      "- 与えられたHTMLテキストを要約してください。";
      "  - 短すぎるのはダメです。";
      "  - 省略しすぎないでください。";
      "- 本文が日本語以外の場合は日本語に翻訳してください。";
      "  - ただし1000文字を超える部分は省略してください。";
      "- 要約・翻訳した本文以外のテキストは含めないでください。";
      "";
      "";
      "### 返答フォーマット(JSON)";
      "";
      "{";
      format_field "summary" "要約したWebページの内容";
      format_field "language" "ISO 639-1 で表されるWebページ本文の言語";
      format_field "body_translated"
        "日本語に翻訳されたWebページ本文（日本語以外の言語の場合のみ）";
      "}";
      "";
      "";
      "### 要約すべき内容";
      "";
      text;
      "" ].

(** [completion.choices[0].message] *)
Definition first_message (completion : option Completion) : exn + Message :=
  match completion with
  | None => inl (Exn AttributeError "'NoneType' object has no attribute 'choices'")
  | Some c =>
      match choices c with
      | [] => inl (Exn IndexError "list index out of range")
      | m :: _ => inr m
      end
  end.

(** [json.loads(text)] followed by [format_reply]. *)
Definition parse_reply (text : string) : exn + (string * option string) :=
  match json_loads E text with
  | inl e => inl e
  | inr arguments => format_reply arguments
  end.

Definition parse_failed (content : string) : string :=
  ("Parse `content` failed: ```" ++ content ++ "```")%string.

(** Response normalization (lines 138-151): the pair [(summary, body)]
    that reaches the posting code, or the exception that escapes. *)
Definition normalize_response (message : Message)
  : exn + (option string * option string) :=
  let content := strip (or_default (msg_content message) "???") in
  match msg_function_call message with
  | Some function_call =>
      if String.eqb (fc_name function_call) "reply_processed_text" then
        match parse_reply (fc_arguments function_call) with
        | inl e => inl e
        | inr (summary, body) => inr (Some summary, body)
        end
      else inr (None, None)
  | None =>
      match parse_reply content with
      | inr (summary, body) => inr (Some summary, body)
      | inl _ => inr (None, Some (parse_failed content))
      end
  end.

(** [if segment: await chat_post_message(..., text=segment, ...)] *)
Definition post_segment (event : SlackEvent) (segment : option string)
           (reply_broadcast : bool) : M unit :=
  match segment with
  | Some text =>
      if truthy segment then
        (chat_post_message
           (mkPost (ev_channel event) text (ev_ts event) reply_broadcast) ;;;
         ret tt)%comp
      else ret tt
  | None => ret tt
  end.

(** [summerize_text] (lines 77-169). *)
Definition summerize_text (event : SlackEvent) (text : string) : M unit :=
  (completion <- chat_completion_create (prompt_of text) ;;
   message <- lift (first_message completion) ;;
   segments <- lift (normalize_response message) ;;
   post_segment event (fst segments) true ;;;
   post_segment event (snd segments) false)%comp.

(** [query_params.get("url")] *)
Fixpoint params_get (params : list (string * list string)) (key : string)
  : option (list string) :=
  match params with
  | [] => None
  | (k, vs) :: params' => if String.eqb k key then Some vs else params_get params' key
  end.

(** The rewrite of redirector links (lines 175-186). *)
Definition resolve_link (url : string) : string :=
  if startswith url "https://www.google.com/url?" then
    let query_params := parse_qs (urlparse_query url) in
    match params_get query_params "url" with
    | Some (first :: _) => first
    | _ => url
    end
  else url.

(** [response.raise_for_status()] *)
Definition raise_for_status (response : Response) : exn + unit :=
  if ((400 <=? status_code response) && (status_code response <? 600))%Z
  then inl (Exn RequestException "HTTPError")
  else inr tt.

(** [process_link] (lines 172-195). *)
Definition process_link (event : SlackEvent) (url : string) : M unit :=
  let url := resolve_link url in
  (response <- await (HttpGet url) (requests_get E url) ;;
   lift (raise_for_status response) ;;;
   summerize_text event (fst (extractor_as_text E (response_text response))))%comp.

(** [message_id in processed_ids] and [processed_ids[message_id] = True];
    [now] is what the cache's clock reads. *)
Definition seen (now : Q) (message_id : string) : M bool :=
  fun w => (inr (cache_contains now (processed_ids w) message_id), w).

Definition mark_seen (now : Q) (message_id : string) : M unit :=
  fun w => (inr tt, mkWorld (trace w) (cache_setitem now (processed_ids w) message_id)).

Definition opt_string_eqb (x : option string) (s : string) : bool :=
  match x with
  | Some s' => String.eqb s' s
  | None => false
  end.

(** The body of the innermost loop (lines 223-224). *)
Definition process_item (event : SlackEvent) (item : Item) : M unit :=
  if opt_string_eqb (item_type item) "link" then
    match item_url item with
    | Some url => process_link event url
    | None => raise (Exn KeyError "'url'")
    end
  else ret tt.

(** [handle_message_events] (lines 201-224). *)
Definition handle_message_events (now : Q) (event : SlackEvent) : M unit :=
  (emit EvAck ;;;
   if is_not_None (ev_previous_message event) then ret tt
   else
       let message_id := (ev_channel event ++ "." ++ ev_event_ts event)%string in
       known <- seen now message_id ;;
       if known then ret tt
       else
         mark_seen now message_id ;;;
         for_each (ev_blocks event) (fun block =>
           for_each (blk_elements block) (fun element =>
             for_each (el_elements element) (fun item =>
               process_item event item))))%comp.
End Program.

(** ** Observations on a trace *)

Definition is_call (ev : Event) : bool :=
  match ev with EvCall _ _ => true | _ => false end.

(** How many external calls a trace holds. *)
Definition count_calls (tr : Trace) : nat := length (filter is_call tr).

(** The delays slept, in order. *)
Fixpoint sleeps (tr : Trace) : list Q :=
  match tr with
  | [] => []
  | EvSleep d :: tr' => d :: sleeps tr'
  | _ :: tr' => sleeps tr'
  end.


(** [wait], [wait * factor], [wait * factor * factor], ...: [n] delays. *)
Fixpoint backoff_schedule (wait_time factor : Q) (n : nat) : list Q :=
  match n with
  | O => []
  | S n' => wait_time :: backoff_schedule (wait_time * factor)%Q factor n'
  end.

(** ** The deduplication gate *)

(** Lines 213-215 as one step on the cache: whether the event is to be
    processed, and the cache afterwards. *)
Definition dedup_gate (now : Q) (message_id : string) (c : TTLCache) : bool * TTLCache :=
  if cache_contains now c message_id then (false, c)
  else (true, cache_setitem now c message_id).

(** The cache after a run of gate calls, each with its clock reading. *)
Definition run_gates (calls : list (Q * string)) (c : TTLCache) : TTLCache :=
  fold_left (fun c tk => snd (dedup_gate (fst tk) (snd tk) c)) calls c.

(** The three nested loops of [handle_message_events] (lines 220-224). *)
Definition process_links (E : Env) (event : SlackEvent) : M unit :=
  for_each (ev_blocks event) (fun block =>
    for_each (blk_elements block) (fun element =>
      for_each (el_elements element) (fun item =>
        process_item E event item))).

(** The dedup key of an event. *)
Definition message_id_of (event : SlackEvent) : string :=
  (ev_channel event ++ "." ++ ev_event_ts event)%string.

(** [n] distinct dedup keys of one channel. *)
Definition other_keys (n : nat) : list (Q * string) :=
  map (fun i => ((1 # 1)%Q,
                 ("C0." ++ NilEmpty.string_of_uint (Nat.to_uint i))%string))
      (seq 0 n).

(** [k] is an entry with expiry [e], no older entry has its key, and at
    most [j] entries are newer. *)
Definition holds_key (k : string) (e : Q) (j : nat) (l : list (string * Q)) : Prop :=
  exists pre post,
    l = pre ++ (k, e) :: post /\ link_expires pre k = None /\ length post <= j.

(** The dedup key of the event that is delivered twice in
    [duplicate_reprocessed_after_overflow]. *)
Definition duplicate_key : string := "C1.1700000000.000100".

(** ** The reply, the links and the posts *)

(** The text that [normalize_response] hands to [json.loads]: the
    argument payload of the offered function, or the content. *)
Definition content_of (message : Message) : string :=
  strip (or_default (msg_content message) "???").

Definition parsed_text (message : Message) : option string :=
  match msg_function_call message with
  | Some function_call =>
      if String.eqb (fc_name function_call) "reply_processed_text"
      then Some (fc_arguments function_call)
      else None
  | None => Some (content_of message)
  end.

(** The items that the loops of the handler visit, in order. *)
Definition items_of (event : SlackEvent) : list Item :=
  flat_map (fun block => flat_map el_elements (blk_elements block)) (ev_blocks event).

(** The posts to the chat that were attempted, in order. *)
Fixpoint posts (tr : Trace) : list PostArgs :=
  match tr with
  | [] => []
  | EvCall (SlackPost p) _ :: tr' => p :: posts tr'
  | _ :: tr' => posts tr'
  end.

(** The URLs that were fetched, in order. *)
Fixpoint fetches (tr : Trace) : list string :=
  match tr with
  | [] => []
  | EvCall (HttpGet url) _ :: tr' => url :: fetches tr'
  | _ :: tr' => fetches tr'
  end.

(** What a decorated call may add to the trace: attempts of its own
    call, log entries and sleeps. *)
Definition own_event (call : Call) (ev : Event) : Prop :=
  match ev with
  | EvCall c _ => c = call
  | EvLogError _ _ | EvSleep _ => True
  | EvAck => False
  end.

(** ** Sample responses and environments *)

(** The text of a JSON object with three string members. *)
Definition json_text (summary language body_translated : string) : string :=
  ("{" ++ dq ++ "summary" ++ dq ++ ": " ++ dq ++ summary ++ dq ++ ", "
       ++ dq ++ "language" ++ dq ++ ": " ++ dq ++ language ++ dq ++ ", "
       ++ dq ++ "body_translated" ++ dq ++ ": " ++ dq ++ body_translated ++ dq
       ++ "}")%string.

Definition reply_en : list (string * json) :=
  [("summary", JString "S"); ("language", JString "en"); ("body_translated", JString "T")].

Definition reply_ja : list (string * json) :=
  [("summary", JString "S"); ("language", JString "ja"); ("body_translated", JString "T")].

(** [json.loads] on the documents used below: two objects, and text
    that is not JSON. *)
Definition sample_json_loads (text : string) : exn + json :=
  if String.eqb text (json_text "S" "en" "T") then inr (JObject reply_en)
  else if String.eqb text (json_text "S" "ja" "T") then inr (JObject reply_ja)
  else inl (Exn JSONDecodeError "Expecting value").

(** An environment in which the model always answers [message], posting
    to the chat succeeds or always fails with a platform error, and
    fetching succeeds for every URL but [broken_url]. *)
Definition sample_env (message : Message) (post_ok : bool) (broken_url : string) : Env :=
  mkEnv (fun _ _ => inr (mkCompletion [message]))
        (fun _ _ => if post_ok then inr tt else inl (Exn SlackApiError "ratelimited"))
        (fun url _ => if String.eqb url broken_url
                      then inl (Exn RequestException "ConnectionError")
                      else inr (mkResponse 200 "page"))
        (fun html => (html, "title"))
        sample_json_loads
        (fun _ => "None").

Definition message_en_call : Message :=
  mkMessage None (Some (mkFunctionCall "reply_processed_text" (json_text "S" "en" "T"))).

Definition message_en_inline : Message :=
  mkMessage (Some (json_text "S" "en" "T")) None.

Definition message_ja_call : Message :=
  mkMessage None (Some (mkFunctionCall "reply_processed_text" (json_text "S" "ja" "T"))).

(** A function call whose argument payload is cut short. *)
Definition message_bad_arguments : Message :=
  mkMessage None (Some (mkFunctionCall "reply_processed_text" "{")).

(** A call of a function the program did not offer. *)
Definition message_other_function : Message :=
  mkMessage None (Some (mkFunctionCall "search_web" (json_text "S" "en" "T"))).

(** Content that is not JSON, with a space before it. *)
Definition message_padded : Message := mkMessage (Some " x") None.

Definition link (url : string) : Item := mkItem (Some "link") (Some url).

(** An event with the given links in one block. *)
Definition event_with (urls : list string) : SlackEvent :=
  mkSlackEvent None "C1" "1700000000.000100" "1700000000.000100"
               [mkBlock [mkElement (map link urls)]].

Definition world_initial : World := mkWorld [] processed_ids_initial.

(** Fetching [https://a.example/] fails; everything else works. *)
Definition env_fetch_fails : Env := sample_env message_en_call true "https://a.example/".

(** Posting to the chat always fails; everything else works. *)
Definition env_post_fails : Env := sample_env message_en_call false "".

Definition event_two_links : SlackEvent :=
  event_with ["https://a.example/"; "https://b.example/"].

Definition event_second_link : SlackEvent := event_with ["https://b.example/"].

(** ** Effects of a computation *)

(** [m] leaves the cache alone and only appends events that satisfy
    [P] to the trace. *)
Definition adds (P : Event -> Prop) {A} (m : M A) : Prop :=
  forall w r w',
    m w = (r, w') ->
    processed_ids w' = processed_ids w
    /\ exists added, trace w' = trace w ++ added /\ Forall P added.

Definition not_ack (ev : Event) : Prop :=
  match ev with
  | EvAck => False
  | _ => True
  end.

(** Events of the summarize operation: model calls, posts, and the log
    entries and sleeps of their retries. *)
Definition summarize_event (ev : Event) : Prop :=
  match ev with
  | EvAck | EvCall (HttpGet _) _ => False
  | _ => True
  end.

(** How many calls to the model a trace holds. *)
Fixpoint model_calls (tr : Trace) : nat :=
  match tr with
  | [] => 0
  | EvCall (OpenAIChat _) _ :: tr' => S (model_calls tr')
  | _ :: tr' => model_calls tr'
  end.

(** The posts of a reply: the summary with the broadcast flag, then the
    body without it, each when present. *)
Definition reply_posts (event : SlackEvent) (segments : option string * option string)
  : list PostArgs :=
  match fst segments with
  | Some summary => [mkPost (ev_channel event) summary (ev_ts event) true]
  | None => []
  end
  ++ match snd segments with
     | Some body => [mkPost (ev_channel event) body (ev_ts event) false]
     | None => []
     end.

(** A post that went through at the first attempt. *)
Definition posted (p : PostArgs) : Event := EvCall (SlackPost p) None.

(** Every entry of the cache for [key] expires at [bound] at the latest. *)
Definition expires_by (key : string) (bound : Q) (l : list (string * Q)) : Prop :=
  Forall (fun kt => fst kt = key -> (snd kt <= bound)%Q) l.

(** A model service that times out twice and then answers. *)
Definition flaky_create (message : Message) (tr : Trace) : exn + Completion :=
  if Nat.ltb (count_calls tr) 2 then inl (Exn OpenAIError "timeout")
  else inr (mkCompletion [message]).

(** [isinstance(v, dict)] *)
Definition is_object (v : json) : bool :=
  match v with
  | JObject _ => true
  | _ => false
  end.

(** An environment whose JSON decoder answers [loads]; the rest as in
    [sample_env]. *)
Definition env_with_loads (loads : string -> exn + json) : Env :=
  mkEnv (fun _ _ => inr (mkCompletion [message_en_inline]))
        (fun _ _ => inr tt)
        (fun _ _ => inr (mkResponse 200 "page"))
        (fun html => (html, "title"))
        loads
        (fun _ => "None").

(** [comp] appends to the trace at most [f] fetches, [m] calls to the
    model and [p] posts. *)
Definition uses (f m p : nat) {A} (comp : M A) : Prop :=
  forall w r w',
    comp w = (r, w') ->
    exists added,
      trace w' = trace w ++ added
      /\ length (fetches added) <= f
      /\ model_calls added <= m
      /\ length (posts added) <= p.

Definition is_link (item : Item) : bool := opt_string_eqb (item_type item) "link".

(** How many link items an event holds. *)
Definition link_count (event : SlackEvent) : nat :=
  length (filter is_link (items_of event)).

(** An environment in which every fetch is answered with the given
    status code; the rest as in [sample_env]. *)
Definition env_with_status (status : Z) : Env :=
  mkEnv (fun _ _ => inr (mkCompletion [message_en_call]))
        (fun _ _ => inr tt)
        (fun _ _ => inr (mkResponse status "Not Found"))
        (fun html => (html, "title"))
        sample_json_loads
        (fun _ => "None").

(** An event whose only item is plain text. *)
Definition event_without_links : SlackEvent :=
  mkSlackEvent None "C1" "1700000000.000200" "1700000000.000200"
               [mkBlock [mkElement [mkItem (Some "text") None]]].

(** ** The fields of a redirector link *)

(** The prefix that [process_link] tests for. *)
Definition redirector_prefix : string := "https://www.google.com/url?".

(** ["&".join(fields)] *)
Fixpoint join_fields (fields : list string) : string :=
  match fields with
  | [] => ""
  | [field] => field
  | field :: fields' => (field ++ "&" ++ join_fields fields')%string
  end.

(** The field reads [name=value], with a name that stands for [url]
    once its [+] and [%xx] are decoded and a value that is not blank. *)
Definition names_url (field value : string) : Prop :=
  exists name,
    field = (name ++ "=" ++ value)%string
    /\ has_char "=" name = false
    /\ unquote (plus_to_space name) = "url"
    /\ value <> "".

(** What [parse_qsl] makes of one field. *)
Definition field_pairs (field : string) : list (string * string) :=
  match after_char "=" field with
  | None | Some EmptyString => []
  | Some value =>
      [(unquote (plus_to_space (before_char "=" field)), unquote (plus_to_space value))]
  end.

(** The values that a list of pairs holds for a name, in order. *)
Definition values_of (pairs : list (string * string)) (name : string) : list string :=
  map snd (filter (fun nv => String.eqb (fst nv) name) pairs).

(** The world after a run of deliveries, each handled at its clock
    reading.  An exception that leaves the handler is dropped by its
    caller; the next delivery is handled in the world that was left. *)
Definition run_handlers (E : Env) (deliveries : list (Q * SlackEvent)) (w : World) : World :=
  fold_left (fun w d => snd (handle_message_events E (fst d) (snd d) w)) deliveries w.

(** The gate calls that a run of deliveries makes: one for each event
    that is not a preview. *)
Definition gate_calls (deliveries : list (Q * SlackEvent)) : list (Q * string) :=
  map (fun d => (fst d, message_id_of (snd d)))
      (filter (fun d => negb (is_not_None (ev_previous_message (snd d)))) deliveries).

(** * Properties *)

(** ** Traces *)

Lemma count_calls_app tr tr' :
  count_calls (tr ++ tr') = count_calls tr + count_calls tr'.
Proof.
  unfold count_calls. now rewrite filter_app, length_app.
Qed.

Lemma sleeps_app tr tr' : sleeps (tr ++ tr') = sleeps tr ++ sleeps tr'.
Proof.
  induction tr as [|ev tr IH]; simpl; [reflexivity|].
  destruct ev; simpl; now rewrite IH.
Qed.


(** ** The retry decorator *)

Section RetryFacts.
Variable A : Type.
Variable exceptions : exn -> bool.
Variable total_tries : nat.
Variable backoff_factor : Q.
Variable call : Call.
Variable func : Trace -> exn + A.

(** One iteration whose call raises an error that the [except] clause
    catches: the error is logged; then it is raised again on the last
    iteration, and otherwise the loop sleeps and goes on with the
    longer delay. *)
Lemma retry_loop_caught n i wait_time w e :
  func (trace w) = inl e ->
  exceptions e = true ->
  retry_loop exceptions total_tries backoff_factor call func (S n) i wait_time w
  = if Nat.eqb i (total_tries - 1)
    then (inl e,
          mkWorld (trace w ++ [EvCall call (Some e); EvLogError e wait_time])
                  (processed_ids w))
    else retry_loop exceptions total_tries backoff_factor call func
           n (S i) (wait_time * backoff_factor)%Q
           (mkWorld (trace w ++ [EvCall call (Some e); EvLogError e wait_time;
                                 EvSleep wait_time])
                    (processed_ids w)).
Proof.
  intros Hf He. cbn [retry_loop]. unfold await. rewrite Hf, He.
  unfold bind, emit, raise. cbn [trace processed_ids].
  destruct (Nat.eqb i (total_tries - 1)); cbn [trace processed_ids];
    now rewrite <- !app_assoc.
Qed.

End RetryFacts.







(** C7.  An error that the decorator does not catch ends the call at
    the first invocation: one call in the trace, no log entry, no sleep,
    and the error reaches the caller as raised. *)
Theorem retry_other_error_single_attempt :
  forall (A : Type) (exceptions : exn -> bool) (total_tries : nat)
         (initial_wait backoff_factor : Q) (call : Call)
         (func : Trace -> exn + A) (w : World) (e : exn),
    1 <= total_tries ->
    func (trace w) = inl e ->
    exceptions e = false ->
    retry exceptions total_tries initial_wait backoff_factor call func w
    = (inl e, mkWorld (trace w ++ [EvCall call (Some e)]) (processed_ids w)).
Proof.
  intros A exceptions total_tries initial_wait backoff_factor call func w e HN Hf He.
  destruct total_tries as [|n]; [lia|].
  unfold retry. simpl. unfold await. now rewrite Hf, He.
Qed.

Lemma retry_other_error_single_attempt_witness :
  retry (isinstance OpenAIError) 3 (1 # 1) (2 # 1) (OpenAIChat "p")
        (fun _ => @inl exn Completion (Exn OtherError "cancelled")) world_initial
  = (inl (Exn OtherError "cancelled"),
     mkWorld (trace world_initial
              ++ [EvCall (OpenAIChat "p") (Some (Exn OtherError "cancelled"))])
             (processed_ids world_initial)).
Proof.
  apply (@retry_other_error_single_attempt Completion (isinstance OpenAIError) 3
           (1 # 1) (2 # 1) (OpenAIChat "p")
           (fun _ => inl (Exn OtherError "cancelled")) world_initial
           (Exn OtherError "cancelled")).
  - lia.
  - reflexivity.
  - reflexivity.
Defined.

(** ** The deduplication cache *)

Lemma Qlt_bool_true (a b : Q) : Qlt_bool a b = true <-> (a < b)%Q.
Proof.
  unfold Qlt_bool. rewrite negb_true_iff. split.
  - intros H. apply Qnot_le_lt. intros Hle. apply Qle_bool_iff in Hle. congruence.
  - intros H. destruct (Qle_bool b a) eqn:Hb; [|reflexivity].
    apply Qle_bool_iff in Hb. exfalso. exact (Qlt_not_le _ _ H Hb).
Qed.

Lemma link_expires_app_hit pre k e post :
  link_expires pre k = None ->
  link_expires (pre ++ (k, e) :: post) k = Some e.
Proof.
  induction pre as [|[k' t] pre IH]; simpl; intros H.
  - now rewrite String.eqb_refl.
  - destruct (String.eqb k' k); [discriminate|]. now apply IH.
Qed.

Lemma link_expires_skipn n l k :
  link_expires l k = None -> link_expires (skipn n l) k = None.
Proof.
  revert l. induction n as [|n IH]; intros [|[k' t] l]; simpl; auto.
  destruct (String.eqb k' k); [discriminate|]. apply IH.
Qed.

Lemma link_expires_unlink_other k' l k :
  link_expires l k = None -> link_expires (unlink k' l) k = None.
Proof.
  induction l as [|[k0 t] l IH]; simpl; auto.
  destruct (String.eqb k0 k) eqn:Hk; [discriminate|]. intros H.
  destruct (negb (String.eqb k0 k')); simpl; [rewrite Hk|]; auto.
Qed.

Lemma link_expires_unlink_same k l : link_expires (unlink k l) k = None.
Proof.
  induction l as [|[k0 t] l IH]; simpl; auto.
  destruct (String.eqb k0 k) eqn:Hk; simpl; [assumption|]. now rewrite Hk.
Qed.

Lemma unlink_length k l : length (unlink k l) <= length l.
Proof. apply filter_length_le. Qed.

Lemma unlink_app_keep k' pre k e post :
  String.eqb k k' = false ->
  unlink k' (pre ++ (k, e) :: post) = unlink k' pre ++ (k, e) :: unlink k' post.
Proof.
  intros H. unfold unlink. rewrite filter_app. simpl. now rewrite H.
Qed.

(** Expiry leaves an entry that has not expired, and all that is newer. *)
Lemma expire_keeps now pre k e post :
  (now < e)%Q ->
  link_expires pre k = None ->
  exists pre',
    expire now (pre ++ (k, e) :: post) = pre' ++ (k, e) :: post
    /\ link_expires pre' k = None.
Proof.
  intros He. induction pre as [|[k' t] pre IH]; simpl; intros Hpre.
  - exists []. apply Qlt_bool_true in He. now rewrite He.
  - destruct (String.eqb k' k) eqn:Hk; [discriminate|].
    destruct (Qlt_bool now t).
    + exists ((k', t) :: pre). simpl. now rewrite Hk.
    + now apply IH.
Qed.

Lemma skipn_app_keep {X} n (pre : list X) x post :
  n <= length pre -> skipn n (pre ++ x :: post) = skipn n pre ++ x :: post.
Proof.
  intros H. rewrite skipn_app. replace (n - length pre) with 0 by lia. reflexivity.
Qed.

(** One more gate call, for any key, keeps an unexpired entry in the
    cache while there is room left behind it. *)
Lemma dedup_gate_keeps now k' c k e j :
  holds_key k e j (cache_links c) ->
  (now < e)%Q ->
  j + 2 <= cache_maxsize c ->
  let c' := snd (dedup_gate now k' c) in
  holds_key k e (S j) (cache_links c')
  /\ cache_maxsize c' = cache_maxsize c.
Proof.
  intros (pre & post & Hl & Hpre & Hpost) He Hroom. unfold dedup_gate.
  destruct (cache_contains now c k') eqn:Hin; simpl.
  - split; [|reflexivity]. exists pre, post. repeat split; auto.
  - split; [|reflexivity].
    assert (Hkk : String.eqb k k' = false).
    { destruct (String.eqb_spec k k') as [<-|]; [|reflexivity]. exfalso.
      unfold cache_contains in Hin. rewrite Hl in Hin.
      rewrite link_expires_app_hit in Hin by assumption.
      apply Qlt_bool_true in He. congruence. }
    unfold cache_setitem. simpl. rewrite Hl.
    destruct (@expire_keeps now pre k e post He Hpre) as (pre' & -> & Hpre').
    destruct (link_expires (pre' ++ (k, e) :: post) k').
    + rewrite unlink_app_keep by assumption. rewrite <- app_assoc. simpl.
      exists (unlink k' pre'), (unlink k' post ++ [(k', (now + cache_ttl c)%Q)]).
      repeat split.
      * now apply link_expires_unlink_other.
      * rewrite length_app. simpl. pose proof (unlink_length k' post). lia.
    + rewrite skipn_app_keep
        by (rewrite length_app; simpl; lia).
      rewrite unlink_app_keep by assumption. rewrite <- app_assoc. simpl.
      eexists (unlink k' (skipn _ pre')), (unlink k' post ++ [(k', (now + cache_ttl c)%Q)]).
      repeat split.
      * apply link_expires_unlink_other. now apply link_expires_skipn.
      * rewrite length_app. simpl. pose proof (unlink_length k' post). lia.
Qed.

Lemma dedup_gate_maxsize now k c :
  cache_maxsize (snd (dedup_gate now k c)) = cache_maxsize c.
Proof. unfold dedup_gate. now destruct (cache_contains now c k). Qed.

Lemma holds_key_weaken k e j j' l : j <= j' -> holds_key k e j l -> holds_key k e j' l.
Proof.
  intros Hj (pre & post & Hl & Hpre & Hpost). exists pre, post. repeat split; auto. lia.
Qed.

Lemma run_gates_keeps (t2 : Q) k e :
  (t2 < e)%Q ->
  forall between c j,
    holds_key k e j (cache_links c) ->
    Forall (fun tk => (fst tk <= t2)%Q) between ->
    j + length between < cache_maxsize c ->
    holds_key k e (j + length between) (cache_links (run_gates between c)).
Proof.
  intros He. induction between as [|[t k'] between IH]; intros c j Hk Hall Hlen; simpl in *.
  - now rewrite Nat.add_0_r.
  - inversion Hall as [|? ? Ht Hall']; subst. simpl in Ht.
    destruct (@dedup_gate_keeps t k' c k e j Hk) as (Hk' & Hmax);
      [eapply Qle_lt_trans; eassumption | lia |].
    replace (j + S (length between)) with (S j + length between) by lia.
    apply IH; auto. rewrite Hmax. lia.
Qed.

(** Marking a key makes it the newest entry. *)
Lemma cache_setitem_holds now c k :
  holds_key k (now + cache_ttl c)%Q 0 (cache_links (cache_setitem now c k)).
Proof.
  unfold cache_setitem. simpl. eexists _, []. repeat split.
  - apply link_expires_unlink_same.
  - simpl. lia.
Qed.

Lemma holds_key_contains now c k e j :
  holds_key k e j (cache_links c) -> (now < e)%Q -> cache_contains now c k = true.
Proof.
  intros (pre & post & Hl & Hpre & _) He. unfold cache_contains.
  rewrite Hl, link_expires_app_hit by assumption. now apply Qlt_bool_true.
Qed.

(** The handler, read through the gate. *)
Lemma handle_message_events_gate E now event w :
  handle_message_events E now event w
  = let w0 := mkWorld (trace w ++ [EvAck]) (processed_ids w) in
    if is_not_None (ev_previous_message event) then (inr tt, w0)
    else if fst (dedup_gate now (message_id_of event) (processed_ids w))
         then process_links E event
                (mkWorld (trace w0)
                         (snd (dedup_gate now (message_id_of event) (processed_ids w))))
         else (inr tt, w0).
Proof.
  unfold handle_message_events, bind, emit, seen, mark_seen, dedup_gate, message_id_of, ret.
  simpl. destruct (is_not_None (ev_previous_message event)); [reflexivity|].
  now destruct (cache_contains _ _ _).
Qed.

Lemma other_keys_length n : length (other_keys n) = n.
Proof. unfold other_keys. now rewrite length_map, length_seq. Qed.

Lemma other_keys_in_window n : Forall (fun tk => (fst tk <= 2 # 1)%Q) (other_keys n).
Proof.
  unfold other_keys. apply Forall_map, Forall_forall. intros i _. discriminate.
Qed.

(** C2, as the code has it.  Of two gate calls with the same key, the
    second within the TTL window of the first, at most one lets the
    event through, provided fewer than [maxsize] gate calls come in
    between (so that the capacity bound does not evict the key).  The
    handler goes through this gate before its loops: the links of an
    event are processed in a world whose cache already holds the key. *)
Theorem dedup_gate_suppresses_duplicate :
  forall (c : TTLCache) (k : string) (t1 t2 : Q) (between : list (Q * string)),
    length between < cache_maxsize c ->
    Forall (fun tk => (fst tk <= t2)%Q) between ->
    (t2 < t1 + cache_ttl c)%Q ->
    (fst (dedup_gate t1 k c)
     && fst (dedup_gate t2 k (run_gates between (snd (dedup_gate t1 k c)))) = false)
    /\ (forall (E : Env) (event : SlackEvent) (w : World),
           message_id_of event = k ->
           processed_ids w = c ->
           is_not_None (ev_previous_message event) = false ->
           fst (dedup_gate t1 k c) = true ->
           handle_message_events E t1 event w
           = process_links E event
               (mkWorld (trace w ++ [EvAck]) (snd (dedup_gate t1 k c)))
           /\ cache_contains t2 (snd (dedup_gate t1 k c)) k = true).
Proof.
  intros c k t1 t2 between Hlen Hall Ht.
  assert (Hfirst : fst (dedup_gate t1 k c) = true ->
                   holds_key k (t1 + cache_ttl c)%Q 0
                             (cache_links (snd (dedup_gate t1 k c)))).
  { unfold dedup_gate. destruct (cache_contains t1 c k); [discriminate|]. intros _.
    apply cache_setitem_holds. }
  split.
  - destruct (fst (dedup_gate t1 k c)) eqn:Hgo; [|reflexivity]. simpl.
    specialize (Hfirst eq_refl).
    pose proof (@run_gates_keeps t2 k _ Ht between _ 0 Hfirst Hall) as Hk.
    rewrite dedup_gate_maxsize in Hk. specialize (Hk Hlen).
    unfold dedup_gate at 1.
    now rewrite (holds_key_contains _ Hk Ht).
  - intros E event w Hid Hc Hprev Hgo. rewrite handle_message_events_gate.
    simpl. rewrite Hprev, Hid, Hc, Hgo. split; [reflexivity|].
    exact (holds_key_contains _ (Hfirst Hgo) Ht).
Qed.

Lemma dedup_gate_suppresses_duplicate_witness :
  (fst (dedup_gate (0 # 1) duplicate_key processed_ids_initial)
   && fst (dedup_gate (2 # 1) duplicate_key
             (run_gates (other_keys 99)
                (snd (dedup_gate (0 # 1) duplicate_key processed_ids_initial)))) = false)
  /\ (forall (E : Env) (event : SlackEvent) (w : World),
         message_id_of event = duplicate_key ->
         processed_ids w = processed_ids_initial ->
         is_not_None (ev_previous_message event) = false ->
         fst (dedup_gate (0 # 1) duplicate_key processed_ids_initial) = true ->
         handle_message_events E (0 # 1) event w
         = process_links E event
             (mkWorld (trace w ++ [EvAck])
                      (snd (dedup_gate (0 # 1) duplicate_key processed_ids_initial)))
         /\ cache_contains (2 # 1)
                           (snd (dedup_gate (0 # 1) duplicate_key processed_ids_initial))
                           duplicate_key = true).
Proof.
  apply (@dedup_gate_suppresses_duplicate processed_ids_initial duplicate_key
           (0 # 1) (2 # 1) (other_keys 99)).
  - rewrite other_keys_length. simpl. lia.
  - apply other_keys_in_window.
  - reflexivity.
Defined.

(** C2, as the claim has it, fails: with the bound of a hundred entries,
    a hundred other events between the two deliveries evict the key,
    and the duplicate passes the gate two seconds after the first
    delivery, long before its entry would have expired. *)
Lemma duplicate_reprocessed_after_overflow :
  fst (dedup_gate (0 # 1) duplicate_key processed_ids_initial) = true
  /\ Forall (fun tk => (fst tk <= 2 # 1)%Q) (other_keys 100)
  /\ (2 # 1 < (0 # 1) + cache_ttl processed_ids_initial)%Q
  /\ fst (dedup_gate (2 # 1) duplicate_key
            (run_gates (other_keys 100)
               (snd (dedup_gate (0 # 1) duplicate_key processed_ids_initial)))) = true.
Proof.
  split; [reflexivity|]. split; [apply other_keys_in_window|].
  split; [reflexivity|]. vm_compute. reflexivity.
Qed.

(** ** Traces of decorated calls, loops *)

Lemma retry_loop_trace A exceptions total_tries backoff_factor call (func : Trace -> exn + A) :
  forall n i wait_time w r w',
    retry_loop exceptions total_tries backoff_factor call func n i wait_time w = (r, w') ->
    processed_ids w' = processed_ids w
    /\ exists added, trace w' = trace w ++ added /\ Forall (own_event call) added.
Proof.
  induction n as [|n IH]; intros i wait_time w r w'; simpl.
  - unfold ret. intros [= <- <-]. split; [reflexivity|]. exists []. now rewrite app_nil_r.
  - unfold await. destruct (func (trace w)) as [e|a].
    + destruct (exceptions e).
      * unfold bind at 1. unfold emit at 1. simpl.
        destruct (Nat.eqb i (total_tries - 1)).
        -- unfold raise. intros [= <- <-]. split; [reflexivity|]. simpl.
           rewrite <- app_assoc. eexists. split; [reflexivity|].
           repeat constructor.
        -- unfold bind at 1. unfold emit at 1. simpl. intros Hrun.
           apply IH in Hrun. destruct Hrun as (Hc & added & Ht & Hall). simpl in *.
           split; [assumption|]. rewrite Ht, <- !app_assoc. eexists. split; [reflexivity|].
           simpl. repeat constructor. assumption.
      * intros [= <- <-]. split; [reflexivity|]. eexists. split; [reflexivity|].
        repeat constructor.
    + intros [= <- <-]. split; [reflexivity|]. eexists. split; [reflexivity|].
      repeat constructor.
Qed.

Lemma for_each_app {X} (xs ys : list X) (body : X -> M unit) w :
  for_each (xs ++ ys) body w
  = match for_each xs body w with
    | (inr _, w1) => for_each ys body w1
    | (inl e, w1) => (inl e, w1)
    end.
Proof.
  revert w. induction xs as [|x xs IH]; intros w; simpl; [reflexivity|].
  unfold bind. destruct (body x w) as [[e|[]] w1]; [reflexivity|]. apply IH.
Qed.

Lemma for_each_flat_map {X Y} (g : X -> list Y) (body : Y -> M unit) (xs : list X) w :
  for_each xs (fun x => for_each (g x) body) w = for_each (flat_map g xs) body w.
Proof.
  revert w. induction xs as [|x xs IH]; intros w; simpl; [reflexivity|].
  rewrite for_each_app. unfold bind.
  destruct (for_each (g x) body w) as [[e|[]] w1]; [reflexivity|]. apply IH.
Qed.

(** The nested loops visit the items in order. *)
Lemma process_links_items E event w :
  process_links E event w = for_each (items_of event) (process_item E event) w.
Proof.
  unfold process_links, items_of. rewrite <- for_each_flat_map.
  revert w. induction (ev_blocks event) as [|b bs IH]; intros w; simpl; [reflexivity|].
  unfold bind. rewrite for_each_flat_map.
  destruct (for_each (flat_map el_elements (blk_elements b)) (process_item E event) w)
    as [[e|[]] w1]; [reflexivity|]. apply IH.
Qed.

(** A summary that [format_reply] rendered is never empty. *)
Lemma format_reply_summary_truthy E args summary body :
  format_reply E args = inr (summary, body) -> truthy (Some summary) = true.
Proof.
  destruct args; try discriminate. simpl. intros [= <- _]. reflexivity.
Qed.

Lemma format_reply_body_truthy E args summary body :
  format_reply E args = inr (summary, body) -> truthy body = true <-> body <> None.
Proof.
  destruct args; try discriminate. simpl. intros [= _ <-].
  destruct (differs_from _ _ && dict_has _ _); simpl; split; congruence.
Qed.

(** ** Response normalization *)

Lemma differs_from_true v s : differs_from v s = true <-> v <> Some (JString s).
Proof.
  destruct v as [[| | | |s'| |]|]; simpl; try (split; [discriminate | reflexivity]).
  rewrite negb_true_iff. destruct (String.eqb_spec s' s) as [->|Hne]; split; congruence.
Qed.

Lemma dict_has_true d key : dict_has d key = true <-> dict_get d key <> None.
Proof. unfold dict_has. destruct (dict_get d key); split; congruence. Qed.

Lemma normalize_response_parsed E message text :
  parsed_text message = Some text ->
  normalize_response E message
  = match parse_reply E text with
    | inr (summary, body) => inr (Some summary, body)
    | inl e => match msg_function_call message with
               | Some _ => inl e
               | None => inr (None, Some (parse_failed text))
               end
    end.
Proof.
  unfold parsed_text, normalize_response, content_of.
  destruct (msg_function_call message) as [fc|].
  - destruct (String.eqb (fc_name fc) "reply_processed_text"); [|discriminate].
    intros [= <-]. now destruct (parse_reply E (fc_arguments fc)) as [e|[s b]].
  - intros [= <-].
    now destruct (parse_reply E (strip (or_default (msg_content message) "???"))) as [e|[s b]].
Qed.

Lemma normalize_response_summary_truthy E message summary body :
  normalize_response E message = inr (Some summary, body) -> truthy (Some summary) = true.
Proof.
  unfold normalize_response, parse_reply.
  destruct (msg_function_call message) as [fc|].
  - destruct (String.eqb (fc_name fc) "reply_processed_text"); [|discriminate].
    destruct (json_loads E (fc_arguments fc)) as [e|args]; [discriminate|].
    destruct (format_reply E args) as [e|[s b]] eqn:Hf; [discriminate|].
    intros [= <- _]. exact (format_reply_summary_truthy _ _ Hf).
  - destruct (json_loads E _) as [e|args]; [discriminate|].
    destruct (format_reply E args) as [e|[s b]] eqn:Hf; [discriminate|].
    intros [= <- _]. exact (format_reply_summary_truthy _ _ Hf).
Qed.

(** C3.  When the response parses, through the function call or through
    the content, the reply has a summary segment, and it has a
    translation segment exactly when the language is not "ja" and a
    [body_translated] member was supplied; string members are rendered
    as they are. *)
Theorem translation_segment_iff :
  forall (E : Env) (message : Message) (text : string) (d : list (string * json)),
    parsed_text message = Some text ->
    json_loads E text = inr (JObject d) ->
    exists summary body,
      normalize_response E message = inr (Some summary, body)
      /\ truthy (Some summary) = true
      /\ (truthy body = true <->
          dict_get d "language" <> Some (JString "ja")
          /\ dict_get d "body_translated" <> None)
      /\ (forall S, dict_get d "summary" = Some (JString S) ->
                    summary = (nl ++ "*要約*" ++ nl ++ S ++ nl)%string)
      /\ (forall T, truthy body = true ->
                    dict_get d "body_translated" = Some (JString T) ->
                    body = Some (nl ++ "*日本語翻訳*" ++ nl ++ T ++ nl)%string).
Proof.
  intros E message text d Htext Hload.
  rewrite (normalize_response_parsed E _ Htext). unfold parse_reply. rewrite Hload. simpl.
  eexists _, _. split; [reflexivity|]. split; [reflexivity|].
  destruct (differs_from (dict_get d "language") "ja" && dict_has d "body_translated")
    eqn:Hcond.
  - apply andb_true_iff in Hcond. destruct Hcond as [Hl Hb].
    apply differs_from_true in Hl. apply dict_has_true in Hb. repeat split; auto.
    + intros S HS. unfold get_or_unknown. now rewrite HS.
    + intros T _ HT. unfold get_or_unknown. now rewrite HT.
  - split; [|split].
    + split; [discriminate|]. intros [Hl Hb].
      apply differs_from_true in Hl. apply dict_has_true in Hb.
      rewrite Hl, Hb in Hcond. discriminate.
    + intros S HS. unfold get_or_unknown. now rewrite HS.
    + discriminate.
Qed.

Lemma translation_segment_iff_witness :
  exists summary body,
    normalize_response (sample_env message_en_call true "") message_en_call
    = inr (Some summary, body)
    /\ truthy (Some summary) = true
    /\ (truthy body = true <->
        dict_get reply_en "language" <> Some (JString "ja")
        /\ dict_get reply_en "body_translated" <> None)
    /\ (forall S, dict_get reply_en "summary" = Some (JString S) ->
                  summary = (nl ++ "*要約*" ++ nl ++ S ++ nl)%string)
    /\ (forall T, truthy body = true ->
                  dict_get reply_en "body_translated" = Some (JString T) ->
                  body = Some (nl ++ "*日本語翻訳*" ++ nl ++ T ++ nl)%string).
Proof.
  apply (@translation_segment_iff (sample_env message_en_call true "") message_en_call
           (json_text "S" "en" "T") reply_en); reflexivity.
Defined.

(** The two examples of the specification, on both paths. *)
Example reply_en_has_both_segments :
  normalize_response (sample_env message_en_call true "") message_en_call
  = inr (Some (nl ++ "*要約*" ++ nl ++ "S" ++ nl)%string,
         Some (nl ++ "*日本語翻訳*" ++ nl ++ "T" ++ nl)%string)
  /\ normalize_response (sample_env message_en_call true "") message_en_inline
     = inr (Some (nl ++ "*要約*" ++ nl ++ "S" ++ nl)%string,
            Some (nl ++ "*日本語翻訳*" ++ nl ++ "T" ++ nl)%string).
Proof. split; reflexivity. Qed.

Example reply_ja_has_summary_only :
  normalize_response (sample_env message_en_call true "") message_ja_call
  = inr (Some (nl ++ "*要約*" ++ nl ++ "S" ++ nl)%string, None).
Proof. reflexivity. Qed.

Lemma prefix_app (sub post : string) : String.prefix sub (sub ++ post) = true.
Proof.
  induction sub as [|a sub IH]; simpl; [now destruct post|].
  rewrite IH. now destruct (ascii_dec a a).
Qed.

Lemma substring_of_here (sub s : string) : String.prefix sub s = true -> substring_of sub s = true.
Proof. intros H. destruct s; cbn [substring_of]; now rewrite H. Qed.

Lemma substring_of_app (pre sub post : string) :
  substring_of sub (pre ++ sub ++ post) = true.
Proof.
  induction pre as [|a pre IH]; simpl.
  - apply substring_of_here, prefix_app.
  - cbn [substring_of]. rewrite IH. apply orb_true_r.
Qed.

(** C4, as the code has it.  When no function call is signalled and the
    content does not parse as the structured shape, the failure stays
    inside the normalization: the summary is absent and the body is a
    diagnostic message that holds the content as it was handed to the
    parser, that is with the white space around it stripped, and "???"
    in place of an empty or absent content. *)
Theorem parse_failure_echoes_content :
  forall (E : Env) (message : Message) (e : exn),
    msg_function_call message = None ->
    parse_reply E (content_of message) = inl e ->
    normalize_response E message
    = inr (None, Some ("Parse `content` failed: ```" ++ content_of message ++ "```")%string)
    /\ substring_of (content_of message)
                    ("Parse `content` failed: ```" ++ content_of message ++ "```") = true
    /\ content_of message = strip (or_default (msg_content message) "???").
Proof.
  intros E message e Hcall Hparse. split; [|split; [|reflexivity]].
  - unfold normalize_response. fold (content_of message). now rewrite Hcall, Hparse.
  - apply substring_of_app.
Qed.

Lemma parse_failure_echoes_content_witness :
  normalize_response (sample_env message_padded true "") message_padded
  = inr (None, Some ("Parse `content` failed: ```" ++ content_of message_padded ++ "```")%string)
  /\ substring_of (content_of message_padded)
                  ("Parse `content` failed: ```" ++ content_of message_padded ++ "```") = true
  /\ content_of message_padded = strip (or_default (msg_content message_padded) "???").
Proof.
  apply (@parse_failure_echoes_content (sample_env message_padded true "") message_padded
           (Exn JSONDecodeError "Expecting value")); reflexivity.
Defined.

(** C4, as the claim has it, fails: content that arrives with a space in
    front of it does not parse, and the diagnostic message holds it
    without the space, not as it arrived. *)
Lemma padded_content_is_not_echoed_literally :
  msg_function_call message_padded = None
  /\ msg_content message_padded = Some " x"
  /\ parse_reply (sample_env message_padded true "") " x"
     = inl (Exn JSONDecodeError "Expecting value")
  /\ normalize_response (sample_env message_padded true "") message_padded
     = inr (None, Some "Parse `content` failed: ```x```")
  /\ substring_of " x" "Parse `content` failed: ```x```" = false.
Proof. repeat split. Qed.

(** ** The summarize operation *)

(** C5 fails on the function-call path.  The model call succeeded and
    the response signals the offered function, but its argument payload
    does not load as JSON: the decoder's error leaves [summerize_text],
    and nothing is posted. *)
Theorem bad_function_arguments_escape :
  forall (E : Env) (event : SlackEvent) (text : string) (w w1 : World)
         (completion : option Completion) (message : Message)
         (function_call : FunctionCall) (e : exn),
    chat_completion_create E (prompt_of text) w = (inr completion, w1) ->
    first_message completion = inr message ->
    msg_function_call message = Some function_call ->
    fc_name function_call = "reply_processed_text" ->
    json_loads E (fc_arguments function_call) = inl e ->
    summerize_text E event text w = (inl e, w1).
Proof.
  intros E event text w w1 completion message fc e Hcall Hmsg Hfc Hname Hload.
  unfold summerize_text, bind. rewrite Hcall. unfold lift. rewrite Hmsg.
  unfold normalize_response, parse_reply. now rewrite Hfc, Hname, Hload.
Qed.

Lemma bad_function_arguments_escape_witness :
  summerize_text (sample_env message_bad_arguments true "") (event_with []) "page"
                 world_initial
  = (inl (Exn JSONDecodeError "Expecting value"),
     mkWorld [EvCall (OpenAIChat (prompt_of "page")) None] processed_ids_initial).
Proof.
  apply (@bad_function_arguments_escape (sample_env message_bad_arguments true "")
           (event_with []) "page" world_initial
           (mkWorld [EvCall (OpenAIChat (prompt_of "page")) None] processed_ids_initial)
           (Some (mkCompletion [message_bad_arguments])) message_bad_arguments
           (mkFunctionCall "reply_processed_text" "{")
           (Exn JSONDecodeError "Expecting value")); reflexivity.
Defined.

Lemma posts_app tr tr' : posts (tr ++ tr') = posts tr ++ posts tr'.
Proof.
  induction tr as [|ev tr IH]; simpl; [reflexivity|].
  destruct ev as [|[] ?| |]; simpl; now rewrite IH.
Qed.

Lemma posts_of_model_call prompt added :
  Forall (own_event (OpenAIChat prompt)) added -> posts added = [].
Proof.
  induction 1 as [|ev added Hev _ IH]; simpl; [reflexivity|].
  destruct ev as [|c r| |]; simpl in *; auto. now subst c.
Qed.

(** C10.  A response that signals a function other than
    [reply_processed_text] yields neither segment: [summerize_text]
    returns normally after the model call and nothing is posted. *)
Theorem other_function_call_posts_nothing :
  forall (E : Env) (event : SlackEvent) (text : string) (w w1 : World)
         (completion : option Completion) (message : Message)
         (function_call : FunctionCall),
    chat_completion_create E (prompt_of text) w = (inr completion, w1) ->
    first_message completion = inr message ->
    msg_function_call message = Some function_call ->
    fc_name function_call <> "reply_processed_text" ->
    normalize_response E message = inr (None, None)
    /\ summerize_text E event text w = (inr tt, w1)
    /\ posts (trace w1) = posts (trace w).
Proof.
  intros E event text w w1 completion message fc Hcall Hmsg Hfc Hname.
  apply String.eqb_neq in Hname.
  assert (Hnorm : normalize_response E message = inr (None, None)).
  { unfold normalize_response. now rewrite Hfc, Hname. }
  split; [assumption|]. split.
  - unfold summerize_text, bind. rewrite Hcall. unfold lift. now rewrite Hmsg, Hnorm.
  - apply retry_loop_trace in Hcall. destruct Hcall as (_ & added & -> & Hall).
    rewrite posts_app, (posts_of_model_call Hall). apply app_nil_r.
Qed.

Lemma other_function_call_posts_nothing_witness :
  normalize_response (sample_env message_other_function true "") message_other_function
  = inr (None, None)
  /\ summerize_text (sample_env message_other_function true "") (event_with []) "page"
                    world_initial
     = (inr tt, mkWorld [EvCall (OpenAIChat (prompt_of "page")) None] processed_ids_initial)
  /\ posts [EvCall (OpenAIChat (prompt_of "page")) None] = posts [].
Proof.
  apply (@other_function_call_posts_nothing (sample_env message_other_function true "")
           (event_with []) "page" world_initial
           (mkWorld [EvCall (OpenAIChat (prompt_of "page")) None] processed_ids_initial)
           (Some (mkCompletion [message_other_function])) message_other_function
           (mkFunctionCall "search_web" (json_text "S" "en" "T")));
    try reflexivity.
  discriminate.
Defined.

(** ** The link resolver *)

Lemma string_app_assoc (a b c : string) : ((a ++ b) ++ c = a ++ (b ++ c))%string.
Proof. induction a as [|x a IH]; cbn; [reflexivity|]. now rewrite IH. Qed.

Lemma string_app_nil_r (a : string) : (a ++ "" = a)%string.
Proof. induction a as [|x a IH]; cbn; [reflexivity|]. now rewrite IH. Qed.

Lemma startswith_app (p rest : string) : startswith (p ++ rest) p = true.
Proof. apply prefix_app. Qed.

Lemma startswith_inv (p : string) :
  forall s, startswith s p = true -> exists rest, s = (p ++ rest)%string.
Proof.
  unfold startswith. induction p as [|a p IH]; intros s.
  - intros _. now exists s.
  - destruct s as [|b s]; cbn; [discriminate|].
    destruct (ascii_dec a b) as [<-|]; [|discriminate].
    intros H. destruct (IH _ H) as [rest ->]. now exists rest.
Qed.

Lemma has_char_app c (a b : string) : has_char c (a ++ b) = has_char c a || has_char c b.
Proof. induction a as [|x a IH]; cbn; [reflexivity|]. now rewrite IH, orb_assoc. Qed.

Lemma before_char_stop c (a b : string) :
  has_char c a = false -> before_char c (a ++ String c b) = a.
Proof.
  induction a as [|x a IH]; cbn; [now rewrite Ascii.eqb_refl|].
  intros H. apply orb_false_iff in H. destruct H as [-> H]. now rewrite IH.
Qed.

Lemma before_char_all c (a : string) : has_char c a = false -> before_char c a = a.
Proof.
  induction a as [|x a IH]; cbn; [reflexivity|].
  intros H. apply orb_false_iff in H. destruct H as [-> H]. now rewrite IH.
Qed.

Lemma after_char_stop c (a b : string) :
  has_char c a = false -> after_char c (a ++ String c b) = Some b.
Proof.
  induction a as [|x a IH]; cbn; [now rewrite Ascii.eqb_refl|].
  intros H. apply orb_false_iff in H. destruct H as [-> H]. now rewrite IH.
Qed.

Lemma after_char_none c (a : string) : has_char c a = false -> after_char c a = None.
Proof.
  induction a as [|x a IH]; cbn; [reflexivity|].
  intros H. apply orb_false_iff in H. destruct H as [-> H]. now rewrite IH.
Qed.

Lemma after_char_some c (s v : string) :
  after_char c s = Some v -> s = (before_char c s ++ String c v)%string
                             /\ has_char c (before_char c s) = false.
Proof.
  induction s as [|x s IH]; cbn; [discriminate|].
  destruct (Ascii.eqb_spec x c) as [->|Hne].
  - intros [= ->]. now split.
  - intros H. destruct (IH H) as (Heq & Hno). cbn.
    rewrite <- Heq. split; [reflexivity|].
    rewrite Hno. now destruct (Ascii.eqb_spec x c).
Qed.

Lemma split_on_plain c (a : string) : has_char c a = false -> split_on c a = [a].
Proof.
  induction a as [|x a IH]; cbn; [reflexivity|].
  intros H. apply orb_false_iff in H. destruct H as [-> H]. now rewrite IH.
Qed.

Lemma split_on_stop c (a b : string) :
  has_char c a = false -> split_on c (a ++ String c b) = a :: split_on c b.
Proof.
  induction a as [|x a IH]; cbn; [now rewrite Ascii.eqb_refl|].
  intros H. apply orb_false_iff in H. destruct H as [-> H]. now rewrite IH.
Qed.

(** Splitting undoes joining. *)
Lemma split_on_join_fields fields :
  fields <> [] ->
  Forall (fun field => has_char "&" field = false) fields ->
  split_on "&" (join_fields fields) = fields.
Proof.
  induction fields as [|field fields IH]; [congruence|]. intros _ Hall.
  inversion Hall as [|? ? Hfield Hrest]; subst.
  destruct fields as [|field' fields].
  - now apply split_on_plain.
  - change (join_fields (field :: field' :: fields))
      with (field ++ String "&" (join_fields (field' :: fields)))%string.
    rewrite split_on_stop by assumption. now rewrite IH.
Qed.

Lemma join_fields_no_hash fields :
  Forall (fun field => has_char "#" field = false) fields ->
  has_char "#" (join_fields fields) = false.
Proof.
  induction 1 as [|field fields Hfield Hrest IH]; [reflexivity|].
  destruct fields as [|field' fields]; [assumption|].
  change (join_fields (field :: field' :: fields))
    with (field ++ String "&" (join_fields (field' :: fields)))%string.
  rewrite has_char_app, Hfield. cbn [has_char orb]. exact IH.
Qed.

(** The query of a redirector link, read off the link. *)
Lemma remove_unsafe_app (a b : string) :
  remove_unsafe (a ++ b) = (remove_unsafe a ++ remove_unsafe b)%string.
Proof.
  induction a as [|x a IH]; cbn [append remove_unsafe]; [reflexivity|].
  rewrite IH. now destruct (is_unsafe x).
Qed.

Lemma before_char_app c (a b : string) :
  has_char c a = false -> before_char c (a ++ b) = (a ++ before_char c b)%string.
Proof.
  induction a as [|x a IH]; cbn [append before_char has_char]; [reflexivity|].
  intros H. apply orb_false_iff in H. destruct H as [-> H]. now rewrite IH.
Qed.

Lemma urlparse_query_redirector rest :
  urlparse_query (redirector_prefix ++ rest) = before_char "#" (remove_unsafe rest).
Proof.
  unfold urlparse_query. rewrite remove_unsafe_app.
  replace (remove_unsafe redirector_prefix) with redirector_prefix by reflexivity.
  rewrite before_char_app by reflexivity.
  change redirector_prefix with ("https://www.google.com/url" ++ "?")%string.
  rewrite string_app_assoc.
  change ("?" ++ before_char "#" (remove_unsafe rest))%string
    with (String "?" (before_char "#" (remove_unsafe rest))).
  now rewrite after_char_stop by reflexivity.
Qed.

Lemma parse_qsl_fields fields :
  Forall (fun field => has_char "&" field = false) fields ->
  parse_qsl (join_fields fields) = flat_map field_pairs fields.
Proof.
  intros Hall. unfold parse_qsl.
  assert (Hpairs : forall field,
             match field with
             | EmptyString => []
             | _ => match after_char "=" field with
                    | None => []
                    | Some EmptyString => []
                    | Some value =>
                        [(unquote (plus_to_space (before_char "=" field)),
                          unquote (plus_to_space value))]
                    end
             end = field_pairs field).
  { intros [|x field]; reflexivity. }
  destruct (join_fields fields) as [|x q] eqn:Hq.
  - destruct fields as [|field [|field' fields]]; [reflexivity| |].
    + cbn in Hq. now subst field.
    + cbn [join_fields] in Hq. destruct field; discriminate.
  - rewrite <- Hq. rewrite split_on_join_fields; [|now intros ->|assumption].
    apply flat_map_ext. exact Hpairs.
Qed.

Lemma field_pairs_names_url field value :
  names_url field value ->
  field_pairs field = [("url", unquote (plus_to_space value))].
Proof.
  intros (name & -> & Hname & Hurl & Hvalue). unfold field_pairs.
  change (name ++ "=" ++ value)%string with (name ++ String "=" value)%string.
  rewrite after_char_stop, before_char_stop, Hurl by assumption.
  destruct value; [now elim Hvalue|reflexivity].
Qed.

Lemma field_pairs_other field :
  (forall value, ~ names_url field value) ->
  values_of (field_pairs field) "url" = [].
Proof.
  intros Hno. unfold field_pairs.
  destruct (after_char "=" field) as [[|x value]|] eqn:Hafter; try reflexivity.
  unfold values_of. cbn [filter fst].
  destruct (String.eqb_spec (unquote (plus_to_space (before_char "=" field))) "url")
    as [Hurl|]; [|reflexivity].
  exfalso. apply (Hno (String x value)).
  destruct (after_char_some _ _ Hafter) as (Heq & Hname).
  exists (before_char "=" field). repeat split; try assumption. discriminate.
Qed.

Lemma values_of_app pairs pairs' name :
  values_of (pairs ++ pairs') name = values_of pairs name ++ values_of pairs' name.
Proof. unfold values_of. now rewrite filter_app, map_app. Qed.

Lemma values_of_other_fields fields :
  Forall (fun field => forall value, ~ names_url field value) fields ->
  values_of (flat_map field_pairs fields) "url" = [].
Proof.
  induction 1 as [|field fields Hfield _ IH]; [reflexivity|].
  cbn [flat_map]. now rewrite values_of_app, field_pairs_other, IH.
Qed.

Lemma params_get_add params name value key :
  params_get (params_add params name value) key
  = if String.eqb name key
    then Some (match params_get params key with
               | Some values => values ++ [value]
               | None => [value]
               end)
    else params_get params key.
Proof.
  induction params as [|[k vs] params IH]; cbn [params_add params_get].
  - now destruct (String.eqb name key).
  - destruct (String.eqb_spec k name) as [->|Hkn]; cbn [params_get].
    + now destruct (String.eqb name key).
    + rewrite IH. destruct (String.eqb_spec name key) as [->|]; [|reflexivity].
      now rewrite (proj2 (String.eqb_neq _ _) Hkn).
Qed.

(** The dictionary of [parse_qs] lists for a name the values of its
    fields, in the order of the query. *)
Lemma params_get_fold pairs key :
  forall params,
    params_get (fold_left (fun params nv => params_add params (fst nv) (snd nv)) pairs params)
               key
    = match params_get params key, values_of pairs key with
      | Some values, more => Some (values ++ more)
      | None, [] => None
      | None, more => Some more
      end.
Proof.
  induction pairs as [|[n v] pairs IH]; intros params; cbn [fold_left].
  - unfold values_of. cbn. destruct (params_get params key); [now rewrite app_nil_r|reflexivity].
  - rewrite IH, params_get_add. unfold values_of. cbn [filter fst snd].
    destruct (String.eqb n key); cbn [map snd].
    + destruct (params_get params key); [now rewrite <- app_assoc|reflexivity].
    + reflexivity.
Qed.

(** [resolve_link] on a redirector link, by the values that its query
    holds for [url]. *)
Lemma resolve_link_redirector rest fields fragment :
  remove_unsafe rest = (join_fields fields ++ fragment)%string ->
  Forall (fun field => has_char "&" field = false /\ has_char "#" field = false) fields ->
  fragment = "" \/ (exists after, fragment = String "#" after) ->
  resolve_link (redirector_prefix ++ rest)
  = match values_of (flat_map field_pairs fields) "url" with
    | first :: _ => first
    | [] => (redirector_prefix ++ rest)%string
    end.
Proof.
  intros Hrest Hfields Hfragment. unfold resolve_link.
  change "https://www.google.com/url?" with redirector_prefix.
  rewrite startswith_app, urlparse_query_redirector, Hrest.
  assert (Hamp : Forall (fun field => has_char "&" field = false) fields)
    by (eapply Forall_impl; [|exact Hfields]; now intros f [? ?]).
  assert (Hhash : Forall (fun field => has_char "#" field = false) fields)
    by (eapply Forall_impl; [|exact Hfields]; now intros f [? ?]).
  assert (Hquery : before_char "#" (join_fields fields ++ fragment) = join_fields fields).
  { destruct Hfragment as [->|[after ->]].
    - rewrite string_app_nil_r. now apply before_char_all, join_fields_no_hash.
    - now apply before_char_stop, join_fields_no_hash. }
  rewrite Hquery. unfold parse_qs. rewrite params_get_fold, parse_qsl_fields by assumption.
  cbn [params_get]. now destruct (values_of (flat_map field_pairs fields) "url").
Qed.

(** C6, as the code has it.  [resolve_link] is a function from URLs to
    URLs, with no effect and no exception of its own.  A URL that does
    not start with the redirector's prefix comes back as it is.  For a
    URL that starts with it, the query is what follows the prefix up to
    a [#], unsafe characters removed, and its fields are what [&]
    separates: the URL resolves to the decoded value of the first field
    that reads [name=value] with a name that stands for [url] and a
    value that is not blank; when no field is of that kind (no
    parameter [url], or only blank values for it) the URL comes back as
    it is. *)
Theorem resolve_link_by_fields :
  forall url : string,
    ((forall rest, url <> (redirector_prefix ++ rest)%string) -> resolve_link url = url)
    /\ (forall rest fields fragment,
           url = (redirector_prefix ++ rest)%string ->
           remove_unsafe rest = (join_fields fields ++ fragment)%string ->
           Forall (fun field => has_char "&" field = false /\ has_char "#" field = false)
                  fields ->
           fragment = "" \/ (exists after, fragment = String "#" after) ->
           (forall before field after value,
               fields = before ++ field :: after ->
               Forall (fun f => forall v, ~ names_url f v) before ->
               names_url field value ->
               resolve_link url = unquote (plus_to_space value))
           /\ (Forall (fun f => forall v, ~ names_url f v) fields ->
               resolve_link url = url)).
Proof.
  intros url. split.
  - intros Hno. unfold resolve_link.
    destruct (startswith url "https://www.google.com/url?") eqn:Hstart; [|reflexivity].
    apply startswith_inv in Hstart. destruct Hstart as [rest Hrest]. now elim (Hno rest).
  - intros rest fields fragment -> Hrest Hfields Hfragment.
    rewrite (resolve_link_redirector _ Hrest Hfields Hfragment). split.
    + intros before field after value -> Hbefore Hfield.
      rewrite flat_map_app, values_of_app, (values_of_other_fields Hbefore).
      cbn [flat_map app]. rewrite (field_pairs_names_url Hfield), values_of_app.
      reflexivity.
    + intros Hnone. now rewrite (values_of_other_fields Hnone).
Qed.

Lemma names_url_inv field value :
  names_url field value ->
  after_char "=" field = Some value
  /\ value <> ""
  /\ unquote (plus_to_space (before_char "=" field)) = "url".
Proof.
  intros (name & -> & Hname & Hurl & Hvalue).
  change (name ++ "=" ++ value)%string with (name ++ String "=" value)%string.
  now rewrite after_char_stop, before_char_stop by assumption.
Qed.

Lemma resolve_link_by_fields_witness :
  resolve_link "https://www.google.com/url?url=https%3A%2F%2Fexample.com%2Fpage"
  = "https://example.com/page"
  /\ resolve_link "https://www.google.com/url?q=1&url=&x#url=y"
     = "https://www.google.com/url?q=1&url=&x#url=y"
  /\ resolve_link "https://example.com/?url=https%3A%2F%2Fexample.com%2Fpage"
     = "https://example.com/?url=https%3A%2F%2Fexample.com%2Fpage".
Proof.
  split; [|split].
  - apply (proj1 (proj2 (resolve_link_by_fields
                           "https://www.google.com/url?url=https%3A%2F%2Fexample.com%2Fpage")
                        "url=https%3A%2F%2Fexample.com%2Fpage"
                        ["url=https%3A%2F%2Fexample.com%2Fpage"] ""
                        eq_refl eq_refl
                        ltac:(repeat constructor) (or_introl eq_refl))
                 [] "url=https%3A%2F%2Fexample.com%2Fpage" []
                 "https%3A%2F%2Fexample.com%2Fpage" eq_refl (Forall_nil _)).
    exists "url". repeat split. discriminate.
  - apply (proj2 (proj2 (resolve_link_by_fields
                           "https://www.google.com/url?q=1&url=&x#url=y")
                        "q=1&url=&x#url=y" ["q=1"; "url="; "x"] "#url=y"
                        eq_refl eq_refl
                        ltac:(repeat constructor) (or_intror (ex_intro _ "url=y" eq_refl)))).
    repeat constructor; intros v Hv; apply names_url_inv in Hv;
      destruct Hv as (Hafter & Hvalue & Hname); cbn in Hafter, Hname;
      try discriminate; injection Hafter as <-; now elim Hvalue.
  - apply (proj1 (resolve_link_by_fields
                    "https://example.com/?url=https%3A%2F%2Fexample.com%2Fpage")).
    intros rest H. unfold redirector_prefix in H. cbn in H. discriminate.
Defined.

(** C6, as the claim has it, fails.  This link starts with the
    redirector's prefix and its query holds a parameter named [url],
    its first field; the value of the parameter is blank, and the link
    comes back as it is, not as that value. *)
Lemma blank_url_parameter_is_not_resolved :
  startswith "https://www.google.com/url?url=&q=1" "https://www.google.com/url?" = true
  /\ urlparse_query "https://www.google.com/url?url=&q=1" = "url=&q=1"
  /\ split_on "&" "url=&q=1" = ["url="; "q=1"]
  /\ before_char "=" "url=" = "url"
  /\ after_char "=" "url=" = Some ""
  /\ resolve_link "https://www.google.com/url?url=&q=1"
     = "https://www.google.com/url?url=&q=1"
  /\ resolve_link "https://www.google.com/url?url=&q=1" <> "".
Proof. repeat split. discriminate. Qed.

(** ** Failures inside the pipeline *)

(** C8, as the code has it.  The handler has no handler of exceptions
    around [process_link]: when an item fails, with the items before it
    processed, the error leaves [handle_message_events] in the world of
    the failure, and the items after it are not processed. *)
Theorem link_failure_ends_the_event :
  forall (E : Env) (now : Q) (event : SlackEvent) (w w1 w2 : World)
         (before after : list Item) (item : Item) (e : exn),
    is_not_None (ev_previous_message event) = false ->
    cache_contains now (processed_ids w) (message_id_of event) = false ->
    items_of event = before ++ item :: after ->
    for_each before (process_item E event)
             (mkWorld (trace w ++ [EvAck])
                      (cache_setitem now (processed_ids w) (message_id_of event)))
    = (inr tt, w1) ->
    process_item E event item w1 = (inl e, w2) ->
    handle_message_events E now event w = (inl e, w2).
Proof.
  intros E now event w w1 w2 before after item e Hprev Hnew Hitems Hbefore Hfail.
  rewrite handle_message_events_gate. simpl. rewrite Hprev. unfold dedup_gate.
  rewrite Hnew. simpl. rewrite process_links_items, Hitems, for_each_app, Hbefore.
  simpl. unfold bind. now rewrite Hfail.
Qed.

Lemma link_failure_ends_the_event_witness :
  handle_message_events env_fetch_fails (0 # 1) event_two_links world_initial
  = (inl (Exn RequestException "ConnectionError"),
     mkWorld [EvAck; EvCall (HttpGet "https://a.example/")
                            (Some (Exn RequestException "ConnectionError"))]
             (cache_setitem (0 # 1) processed_ids_initial "C1.1700000000.000100")).
Proof.
  apply (@link_failure_ends_the_event
           env_fetch_fails (0 # 1) event_two_links world_initial
           (mkWorld [EvAck]
                    (cache_setitem (0 # 1) processed_ids_initial "C1.1700000000.000100"))
           (mkWorld [EvAck; EvCall (HttpGet "https://a.example/")
                                   (Some (Exn RequestException "ConnectionError"))]
                    (cache_setitem (0 # 1) processed_ids_initial "C1.1700000000.000100"))
           [] [link "https://b.example/"] (link "https://a.example/")
           (Exn RequestException "ConnectionError")); reflexivity.
Defined.

(** C8, as the claim has it, fails.  Of two links in one event, fetching
    the first fails.  The second link, which is fetched, summarized and
    posted when it is the only link of an event, is here neither fetched
    nor posted. *)
Lemma second_link_is_dropped :
  fst (handle_message_events env_fetch_fails (0 # 1) event_two_links world_initial)
  = inl (Exn RequestException "ConnectionError")
  /\ fetches (trace (snd (handle_message_events env_fetch_fails (0 # 1)
                            event_two_links world_initial)))
     = ["https://a.example/"]
  /\ posts (trace (snd (handle_message_events env_fetch_fails (0 # 1)
                          event_two_links world_initial)))
     = []
  /\ fst (handle_message_events env_fetch_fails (0 # 1) event_second_link world_initial)
     = inr tt
  /\ map post_reply_broadcast
         (posts (trace (snd (handle_message_events env_fetch_fails (0 # 1)
                               event_second_link world_initial))))
     = [true; false].
Proof. vm_compute. repeat split. Qed.

(** C9, as the code has it.  The two segments are posted one after the
    other.  The translation segment is posted once the post of the
    summary segment has returned; when the post of the summary fails,
    after its retries or with an error that is not retried, the error
    leaves [summerize_text] and the translation segment is not posted:
    the trace then ends with the attempts for the summary. *)
Theorem summary_post_failure_stops_dispatch :
  forall (E : Env) (event : SlackEvent) (text : string) (w w1 : World)
         (completion : option Completion) (message : Message)
         (summary : string) (body : option string),
    chat_completion_create E (prompt_of text) w = (inr completion, w1) ->
    first_message completion = inr message ->
    normalize_response E message = inr (Some summary, body) ->
    summerize_text E event text w
    = match chat_post_message E (mkPost (ev_channel event) summary (ev_ts event) true) w1 with
      | (inl e, w2) => (inl e, w2)
      | (inr _, w2) => post_segment E event body false w2
      end
    /\ (forall r w2,
           chat_post_message E (mkPost (ev_channel event) summary (ev_ts event) true) w1
           = (r, w2) ->
           exists added,
             trace w2 = trace w1 ++ added
             /\ Forall (own_event
                          (SlackPost (mkPost (ev_channel event) summary (ev_ts event) true)))
                       added).
Proof.
  intros E event text w w1 completion message summary body Hcall Hmsg Hnorm. split.
  - pose proof (normalize_response_summary_truthy _ _ Hnorm) as Htruthy.
    unfold summerize_text, bind. rewrite Hcall. unfold lift. rewrite Hmsg, Hnorm.
    cbn [fst snd]. unfold post_segment at 1. rewrite Htruthy. unfold bind.
    now destruct (chat_post_message E _ w1) as [[e|r] w2].
  - intros r w2 Hpost. apply retry_loop_trace in Hpost. tauto.
Qed.

Lemma summary_post_failure_stops_dispatch_witness :
  summerize_text env_post_fails event_second_link "page" world_initial
  = match chat_post_message env_post_fails
            (mkPost (ev_channel event_second_link)
                    (nl ++ "*要約*" ++ nl ++ "S" ++ nl)%string
                    (ev_ts event_second_link) true)
            (mkWorld [EvCall (OpenAIChat (prompt_of "page")) None] processed_ids_initial) with
    | (inl e, w2) => (inl e, w2)
    | (inr _, w2) =>
        post_segment env_post_fails event_second_link
                     (Some (nl ++ "*日本語翻訳*" ++ nl ++ "T" ++ nl)%string) false w2
    end.
Proof.
  apply (proj1 (@summary_post_failure_stops_dispatch
                  env_post_fails event_second_link "page" world_initial
                  (mkWorld [EvCall (OpenAIChat (prompt_of "page")) None]
                           processed_ids_initial)
                  (Some (mkCompletion [message_en_call])) message_en_call
                  (nl ++ "*要約*" ++ nl ++ "S" ++ nl)%string
                  (Some (nl ++ "*日本語翻訳*" ++ nl ++ "T" ++ nl)%string)
                  eq_refl eq_refl eq_refl)).
Defined.

(** C9, as the claim has it, fails.  The reply has a summary segment and
    a translation segment, and the chat platform rejects every post: the
    summary is attempted three times, the error leaves
    [summerize_text], and the translation segment is never attempted. *)
Lemma translation_post_is_not_attempted :
  normalize_response env_post_fails message_en_call
  = inr (Some (nl ++ "*要約*" ++ nl ++ "S" ++ nl)%string,
         Some (nl ++ "*日本語翻訳*" ++ nl ++ "T" ++ nl)%string)
  /\ fst (summerize_text env_post_fails event_second_link "page" world_initial)
     = inl (Exn SlackApiError "ratelimited")
  /\ map post_text
         (posts (trace (snd (summerize_text env_post_fails event_second_link "page"
                               world_initial))))
     = [(nl ++ "*要約*" ++ nl ++ "S" ++ nl)%string;
        (nl ++ "*要約*" ++ nl ++ "S" ++ nl)%string;
        (nl ++ "*要約*" ++ nl ++ "S" ++ nl)%string].
Proof. vm_compute. repeat split. Qed.

(** * Further properties of the code *)

(** ** The retry decorator *)

Section RetryMore.
Variable A : Type.
Variable exceptions : exn -> bool.
Variable total_tries : nat.
Variable backoff_factor : Q.
Variable call : Call.
Variable func : Trace -> exn + A.

Lemma backoff_schedule_S wait_time n :
  backoff_schedule wait_time backoff_factor (S n)
  = wait_time :: backoff_schedule (wait_time * backoff_factor)%Q backoff_factor n.
Proof. reflexivity. Qed.

(** Whatever the operation does, the loop calls it at most as often as
    iterations are left, and what it sleeps is an initial part of the
    schedule. *)
Lemma retry_loop_bounded :
  forall n i wait_time w r w',
    i + n = total_tries ->
    retry_loop exceptions total_tries backoff_factor call func n i wait_time w = (r, w') ->
    exists added,
      trace w' = trace w ++ added
      /\ count_calls added <= n
      /\ exists rest,
          backoff_schedule wait_time backoff_factor (n - 1) = sleeps added ++ rest.
Proof.
  induction n as [|n IH]; intros i wait_time w r w' Hi.
  - cbn. unfold ret. intros [= <- <-]. exists []. rewrite app_nil_r.
    repeat split; auto. now exists [].
  - cbn [retry_loop]. unfold await. destruct (func (trace w)) as [e|a] eqn:Hf.
    + destruct (exceptions e) eqn:He.
      * unfold bind at 1. unfold emit at 1. cbn [trace processed_ids].
        destruct (Nat.eqb_spec i (total_tries - 1)) as [Hlast|Hmore].
        -- unfold raise. intros [= <- <-]. cbn [trace]. rewrite <- app_assoc.
           eexists. split; [reflexivity|]. cbn. split; [lia|]. eexists. reflexivity.
        -- unfold bind at 1. unfold emit at 1. cbn [trace processed_ids]. intros Hrun.
           apply IH in Hrun; [|lia]. destruct Hrun as (added & Ht & Hc & rest & Hs).
           cbn [trace] in Ht.
           exists ([EvCall call (Some e); EvLogError e wait_time; EvSleep wait_time] ++ added).
           split; [rewrite Ht, <- !app_assoc; reflexivity|].
           rewrite count_calls_app, sleeps_app. cbn. split; [lia|].
           exists rest. destruct n as [|n]; [lia|].
           replace (S n - 0) with (S n) by lia. rewrite backoff_schedule_S.
           replace (S n - 1) with n in Hs by lia. now rewrite Hs.
      * intros [= <- <-]. cbn [trace]. eexists. split; [reflexivity|].
        cbn. split; [lia|]. eexists. reflexivity.
    + intros [= <- <-]. cbn [trace]. eexists. split; [reflexivity|].
      cbn. split; [lia|]. eexists. reflexivity.
Qed.

(** One iteration of the loop. *)
Lemma retry_loop_S n i wait_time w :
  retry_loop exceptions total_tries backoff_factor call func (S n) i wait_time w
  = match func (trace w) with
    | inr a => (inr (Some a), mkWorld (trace w ++ [EvCall call None]) (processed_ids w))
    | inl e =>
        if exceptions e then
          if Nat.eqb i (total_tries - 1)
          then (inl e,
                mkWorld (trace w ++ [EvCall call (Some e); EvLogError e wait_time])
                        (processed_ids w))
          else retry_loop exceptions total_tries backoff_factor call func
                 n (S i) (wait_time * backoff_factor)%Q
                 (mkWorld (trace w ++ [EvCall call (Some e); EvLogError e wait_time;
                                       EvSleep wait_time])
                          (processed_ids w))
        else (inl e, mkWorld (trace w ++ [EvCall call (Some e)]) (processed_ids w))
    end.
Proof.
  destruct (func (trace w)) as [e|a] eqn:Hf.
  - destruct (exceptions e) eqn:He.
    + now apply retry_loop_caught.
    + cbn [retry_loop]. unfold await. now rewrite Hf, He.
  - cbn [retry_loop]. unfold await. now rewrite Hf.
Qed.

(** While an iteration is left the loop does not fall off its end:
    what it returns is the answer of its last call. *)
Lemma retry_loop_last_answer :
  forall n i wait_time w r w',
    i + S n = total_tries ->
    retry_loop exceptions total_tries backoff_factor call func (S n) i wait_time w
    = (inr r, w') ->
    exists a before,
      r = Some a /\ trace w' = before ++ [EvCall call None] /\ func before = inr a.
Proof.
  induction n as [|n IH]; intros i wait_time w r w' Hi; rewrite retry_loop_S;
    destruct (func (trace w)) as [e|a] eqn:Hf;
    try (intros [= <- <-]; now exists a, (trace w));
    (destruct (exceptions e); [|discriminate]);
    destruct (Nat.eqb_spec i (total_tries - 1)) as [Hlast|Hmore];
    try discriminate; try lia.
  apply IH. lia.
Qed.

(** An operation that fails [j] times with errors the decorator catches
    and then answers [a]. *)
Lemma retry_loop_recovers a :
  forall j n i wait_time w,
    i + n = total_tries ->
    j < n ->
    (forall tr, count_calls tr < count_calls (trace w) + j ->
                exists e, func tr = inl e /\ exceptions e = true) ->
    (forall tr, count_calls tr = count_calls (trace w) + j -> func tr = inr a) ->
    exists w',
      retry_loop exceptions total_tries backoff_factor call func n i wait_time w
      = (inr (Some a), w')
      /\ count_calls (trace w') = count_calls (trace w) + S j
      /\ sleeps (trace w') = sleeps (trace w) ++ backoff_schedule wait_time backoff_factor j.
Proof.
  induction j as [|j IH]; intros n i wait_time w Hi Hj Hfail Hok;
    (destruct n as [|n]; [lia|]).
  - rewrite retry_loop_S, (Hok (trace w)) by lia.
    eexists. split; [reflexivity|]. cbn [trace].
    rewrite count_calls_app, sleeps_app. cbn. now rewrite app_nil_r.
  - destruct (Hfail (trace w)) as (e & Hf & He); [lia|].
    rewrite retry_loop_S, Hf, He.
    replace (Nat.eqb i (total_tries - 1)) with false by (symmetry; apply Nat.eqb_neq; lia).
    match goal with |- context [retry_loop _ _ _ _ _ _ _ _ ?w1] =>
      assert (Hc1 : count_calls (trace w1) = S (count_calls (trace w)))
        by (cbn [trace]; rewrite count_calls_app; cbn; lia);
      destruct (IH n (S i) (wait_time * backoff_factor)%Q w1) as (w' & Hrun & Hn & Hs);
        [lia | lia
        | intros tr Htr; apply Hfail; lia
        | intros tr Htr; apply Hok; lia |]
    end.
    exists w'. split; [assumption|]. rewrite Hn, Hs, Hc1. cbn [trace].
    rewrite sleeps_app. cbn. rewrite <- app_assoc. split; [lia|reflexivity].
Qed.
End RetryMore.

(** X1.  An operation that fails [j] times with errors the decorator
    catches and then answers, with [j] below [total_tries], is called
    [j + 1] times; its answer is returned, and the first [j] delays of
    the schedule are slept. *)
Theorem retry_recovers_after_failures :
  forall (A : Type) (exceptions : exn -> bool) (total_tries : nat)
         (initial_wait backoff_factor : Q) (call : Call)
         (func : Trace -> exn + A) (w : World) (a : A) (j : nat),
    j < total_tries ->
    (forall tr, count_calls tr < count_calls (trace w) + j ->
                exists e, func tr = inl e /\ exceptions e = true) ->
    (forall tr, count_calls tr = count_calls (trace w) + j -> func tr = inr a) ->
    exists w',
      retry exceptions total_tries initial_wait backoff_factor call func w
      = (inr (Some a), w')
      /\ count_calls (trace w') = count_calls (trace w) + S j
      /\ sleeps (trace w') = sleeps (trace w) ++ backoff_schedule initial_wait backoff_factor j.
Proof.
  intros A exceptions total_tries initial_wait backoff_factor call func w a j Hj Hfail Hok.
  unfold retry. now apply retry_loop_recovers.
Qed.

Lemma retry_recovers_after_failures_witness :
  exists w',
    retry (isinstance OpenAIError) 3 (1 # 1) (2 # 1) (OpenAIChat "p")
          (flaky_create message_en_call) world_initial
    = (inr (Some (mkCompletion [message_en_call])), w')
    /\ count_calls (trace w') = count_calls (trace world_initial) + 3
    /\ sleeps (trace w')
       = sleeps (trace world_initial) ++ backoff_schedule (1 # 1) (2 # 1) 2.
Proof.
  apply (@retry_recovers_after_failures Completion (isinstance OpenAIError) 3
           (1 # 1) (2 # 1) (OpenAIChat "p") (flaky_create message_en_call)
           world_initial (mkCompletion [message_en_call]) 2).
  - lia.
  - intros tr Htr. exists (Exn OpenAIError "timeout"). unfold flaky_create.
    simpl in Htr. destruct (Nat.ltb_spec (count_calls tr) 2); [split; reflexivity|lia].
  - intros tr Htr. unfold flaky_create. simpl in Htr. rewrite Htr. reflexivity.
Defined.

(** X2.  A decorated call that returns without raising returns the
    answer of the last call to the operation, and that call is the last
    event of the trace.  Only when [total_tries] is zero, so that the
    body of the loop never runs, does it fall off the loop: it then
    returns [None] without calling the operation. *)
Theorem retry_returns_last_answer :
  forall (A : Type) (exceptions : exn -> bool) (total_tries : nat)
         (initial_wait backoff_factor : Q) (call : Call)
         (func : Trace -> exn + A) (w w' : World) (r : option A),
    retry exceptions total_tries initial_wait backoff_factor call func w = (inr r, w') ->
    (total_tries = 0 /\ r = None /\ w' = w)
    \/ (1 <= total_tries
        /\ exists a before,
            r = Some a
            /\ trace w' = before ++ [EvCall call None]
            /\ func before = inr a).
Proof.
  intros A exceptions total_tries initial_wait backoff_factor call func w w' r.
  unfold retry. destruct total_tries as [|n].
  - cbn. unfold ret. intros [= <- <-]. now left.
  - intros Hrun. right. split; [lia|].
    now apply retry_loop_last_answer in Hrun.
Qed.

Lemma retry_returns_last_answer_witness :
  (3 = 0
   /\ Some (mkCompletion [message_en_call]) = None
   /\ snd (retry (isinstance OpenAIError) 3 (1 # 1) (2 # 1) (OpenAIChat "p")
                 (flaky_create message_en_call) world_initial)
      = world_initial)
  \/ (1 <= 3
      /\ exists a before,
          Some (mkCompletion [message_en_call]) = Some a
          /\ trace (snd (retry (isinstance OpenAIError) 3 (1 # 1) (2 # 1) (OpenAIChat "p")
                               (flaky_create message_en_call) world_initial))
             = before ++ [EvCall (OpenAIChat "p") None]
          /\ flaky_create message_en_call before = inr a).
Proof.
  apply (@retry_returns_last_answer Completion (isinstance OpenAIError) 3 (1 # 1) (2 # 1)
           (OpenAIChat "p") (flaky_create message_en_call) world_initial).
  reflexivity.
Defined.

(** What a decorated call does to the world, whatever the operation
    answers. *)
Lemma retry_effects :
  forall (A : Type) (exceptions : exn -> bool) (total_tries : nat)
         (initial_wait backoff_factor : Q) (call : Call)
         (func : Trace -> exn + A) (w w' : World) (r : exn + option A),
    retry exceptions total_tries initial_wait backoff_factor call func w = (r, w') ->
    processed_ids w' = processed_ids w
    /\ exists added,
        trace w' = trace w ++ added
        /\ Forall (own_event call) added
        /\ count_calls added <= total_tries
        /\ exists rest,
            backoff_schedule initial_wait backoff_factor (total_tries - 1)
            = sleeps added ++ rest.
Proof.
  intros A exceptions total_tries initial_wait backoff_factor call func w w' r Hrun.
  unfold retry in Hrun.
  destruct (retry_loop_trace _ _ _ _ _ _ _ _ _ Hrun) as (Hc & added & Ht & Hown).
  destruct (@retry_loop_bounded A exceptions total_tries backoff_factor call func
              total_tries 0 initial_wait w r w' eq_refl Hrun)
    as (added' & Ht' & Hn & rest & Hs).
  rewrite Ht in Ht'. apply app_inv_head in Ht'. subst added'.
  split; [assumption|]. exists added. repeat split; auto. now exists rest.
Qed.

(** X3.  Whatever the operation does, a decorated call calls it at most
    [total_tries] times, adds nothing to the trace but these calls, the
    log entries and the sleeps, sleeps an initial part of the delays
    [initial_wait], [initial_wait * backoff_factor], ..., of which there
    are [total_tries - 1], and leaves the cache as it is. *)
Theorem retry_attempts_bounded :
  forall (A : Type) (exceptions : exn -> bool) (total_tries : nat)
         (initial_wait backoff_factor : Q) (call : Call)
         (func : Trace -> exn + A) (w w' : World) (r : exn + option A),
    retry exceptions total_tries initial_wait backoff_factor call func w = (r, w') ->
    processed_ids w' = processed_ids w
    /\ exists added,
        trace w' = trace w ++ added
        /\ Forall (own_event call) added
        /\ count_calls added <= total_tries
        /\ exists rest,
            backoff_schedule initial_wait backoff_factor (total_tries - 1)
            = sleeps added ++ rest.
Proof. exact retry_effects. Qed.

Lemma retry_attempts_bounded_witness :
  processed_ids
    (snd (retry (isinstance OpenAIError) 3 (1 # 1) (2 # 1) (OpenAIChat "p")
                (flaky_create message_en_call) world_initial))
  = processed_ids world_initial
  /\ exists added,
      trace (snd (retry (isinstance OpenAIError) 3 (1 # 1) (2 # 1) (OpenAIChat "p")
                        (flaky_create message_en_call) world_initial))
      = trace world_initial ++ added
      /\ Forall (own_event (OpenAIChat "p")) added
      /\ count_calls added <= 3
      /\ exists rest, backoff_schedule (1 # 1) (2 # 1) (3 - 1) = sleeps added ++ rest.
Proof.
  apply (@retry_attempts_bounded Completion (isinstance OpenAIError) 3 (1 # 1) (2 # 1)
           (OpenAIChat "p") (flaky_create message_en_call) world_initial _
           (fst (retry (isinstance OpenAIError) 3 (1 # 1) (2 # 1) (OpenAIChat "p")
                       (flaky_create message_en_call) world_initial))).
  reflexivity.
Defined.

(** ** Effects of the computations *)

Lemma adds_ret P A (a : A) : adds P (ret a).
Proof.
  intros w r w' [= <- <-]. split; [reflexivity|]. exists []. now rewrite app_nil_r.
Qed.

Lemma adds_raise P A e : adds P (@raise A e).
Proof.
  intros w r w' [= <- <-]. split; [reflexivity|]. exists []. now rewrite app_nil_r.
Qed.

Lemma adds_lift P A (x : exn + A) : adds P (lift x).
Proof.
  intros w r w' [= <- <-]. split; [reflexivity|]. exists []. now rewrite app_nil_r.
Qed.

Lemma adds_emit (P : Event -> Prop) ev : P ev -> adds P (emit ev).
Proof.
  intros HP w r w' [= <- <-]. split; [reflexivity|]. exists [ev]. now repeat constructor.
Qed.

Lemma adds_await (P : Event -> Prop) A c (func : Trace -> exn + A) :
  (forall raised, P (EvCall c raised)) -> adds P (await c func).
Proof.
  intros HP w r w' [= <- <-]. split; [reflexivity|]. eexists. split; [reflexivity|].
  now repeat constructor.
Qed.

Lemma adds_bind P A B (m : M A) (k : A -> M B) :
  adds P m -> (forall a, adds P (k a)) -> adds P (bind m k).
Proof.
  intros Hm Hk w r w'. unfold bind. destruct (m w) as [[e|a] w1] eqn:Hrun.
  - intros [= <- <-]. exact (Hm _ _ _ Hrun).
  - intros Hrun2. destruct (Hm _ _ _ Hrun) as (Hc1 & added1 & Ht1 & HP1).
    destruct (Hk a _ _ _ Hrun2) as (Hc2 & added2 & Ht2 & HP2).
    split; [congruence|]. exists (added1 ++ added2). split.
    + now rewrite Ht2, Ht1, app_assoc.
    + now apply Forall_app.
Qed.

Lemma adds_weaken (P Q : Event -> Prop) A (m : M A) :
  (forall ev, P ev -> Q ev) -> adds P m -> adds Q m.
Proof.
  intros HPQ Hm w r w' Hrun. destruct (Hm _ _ _ Hrun) as (Hc & added & Ht & HP).
  split; [assumption|]. exists added. split; [assumption|].
  eapply Forall_impl; eassumption.
Qed.

Lemma adds_retry (P : Event -> Prop) A exceptions total_tries initial_wait backoff_factor
      call (func : Trace -> exn + A) :
  (forall ev, own_event call ev -> P ev) ->
  adds P (retry exceptions total_tries initial_wait backoff_factor call func).
Proof.
  intros HP w r w' Hrun. apply retry_loop_trace in Hrun.
  destruct Hrun as (Hc & added & Ht & Hown). split; [assumption|].
  exists added. split; [assumption|]. eapply Forall_impl; eassumption.
Qed.

Lemma adds_for_each P X (xs : list X) (body : X -> M unit) :
  (forall x, adds P (body x)) -> adds P (for_each xs body).
Proof.
  intros Hbody. induction xs as [|x xs IH]; cbn [for_each].
  - apply adds_ret.
  - apply adds_bind; auto.
Qed.

Lemma own_model_call_is_summarize_event prompt ev :
  own_event (OpenAIChat prompt) ev -> summarize_event ev.
Proof. destruct ev as [|c r| |]; simpl; auto. now intros ->. Qed.

Lemma own_post_is_summarize_event p ev :
  own_event (SlackPost p) ev -> summarize_event ev.
Proof. destruct ev as [|c r| |]; simpl; auto. now intros ->. Qed.

Lemma post_segment_adds E event segment reply_broadcast :
  adds summarize_event (post_segment E event segment reply_broadcast).
Proof.
  unfold post_segment. destruct segment as [text|]; [|apply adds_ret].
  destruct (truthy (Some text)); [|apply adds_ret].
  apply adds_bind; [|intros; apply adds_ret].
  apply adds_retry, own_post_is_summarize_event.
Qed.

(** [summerize_text] calls the model and posts; it fetches nothing,
    acknowledges nothing and leaves the cache alone. *)
Lemma summerize_text_adds E event text :
  adds summarize_event (summerize_text E event text).
Proof.
  unfold summerize_text.
  apply adds_bind; [apply adds_retry, own_model_call_is_summarize_event|]. intros completion.
  apply adds_bind; [apply adds_lift|]. intros message.
  apply adds_bind; [apply adds_lift|]. intros segments.
  apply adds_bind; intros; apply post_segment_adds.
Qed.

Lemma summarize_event_not_ack ev : summarize_event ev -> not_ack ev.
Proof. now destruct ev. Qed.

Lemma process_link_adds E event url : adds not_ack (process_link E event url).
Proof.
  unfold process_link.
  apply adds_bind; [apply adds_await; intros; exact I|]. intros response.
  apply adds_bind; [apply adds_lift|]. intros _.
  eapply adds_weaken; [apply summarize_event_not_ack|apply summerize_text_adds].
Qed.

Lemma process_item_adds E event item : adds not_ack (process_item E event item).
Proof.
  unfold process_item. destruct (opt_string_eqb (item_type item) "link"); [|apply adds_ret].
  destruct (item_url item); [apply process_link_adds|apply adds_raise].
Qed.

Lemma process_links_adds E event : adds not_ack (process_links E event).
Proof.
  unfold process_links. repeat (apply adds_for_each; intros). apply process_item_adds.
Qed.

(** ** More on response normalization *)

Lemma parse_failed_truthy content : truthy (Some (parse_failed content)) = true.
Proof. reflexivity. Qed.

(** Every segment that normalization yields is a non-empty string, so
    that the tests [if summary:] and [if body:] only tell [None]. *)
Lemma normalize_response_truthy E message segments :
  normalize_response E message = inr segments ->
  (forall s, fst segments = Some s -> truthy (Some s) = true)
  /\ (forall b, snd segments = Some b -> truthy (Some b) = true).
Proof.
  unfold normalize_response, parse_reply.
  assert (Hfmt : forall args s b b',
             format_reply E args = inr (s, b) -> b = Some b' -> truthy (Some b') = true).
  { intros args s b b' Hf ->. apply (format_reply_body_truthy _ _ Hf). discriminate. }
  destruct (msg_function_call message) as [fc|].
  - destruct (String.eqb (fc_name fc) "reply_processed_text").
    + destruct (json_loads E (fc_arguments fc)) as [e|args]; [discriminate|].
      destruct (format_reply E args) as [e|[s b]] eqn:Hf; [discriminate|].
      intros [= <-]. cbn [fst snd]. split.
      * intros s' [= <-]. exact (format_reply_summary_truthy _ _ Hf).
      * intros b'. exact (Hfmt _ _ _ _ Hf).
    + intros [= <-]. split; discriminate.
  - destruct (json_loads E _) as [e|args].
    + intros [= <-]. split; [discriminate|]. intros b [= <-]. reflexivity.
    + destruct (format_reply E args) as [e|[s b]] eqn:Hf.
      * intros [= <-]. split; [discriminate|]. intros b [= <-]. reflexivity.
      * intros [= <-]. cbn [fst snd]. split.
        -- intros s' [= <-]. exact (format_reply_summary_truthy _ _ Hf).
        -- intros b'. exact (Hfmt _ _ _ _ Hf).
Qed.

(** X4.  Normalization raises only on the branch of the offered
    function, and then with the error of loading or formatting its
    argument payload; without a function call, and with a call of
    another function, it returns segments. *)
Theorem normalize_response_raises_only_for_offered_function :
  forall (E : Env) (message : Message) (e : exn),
    normalize_response E message = inl e ->
    exists function_call,
      msg_function_call message = Some function_call
      /\ fc_name function_call = "reply_processed_text"
      /\ parse_reply E (fc_arguments function_call) = inl e.
Proof.
  intros E message e. unfold normalize_response.
  destruct (msg_function_call message) as [fc|].
  - destruct (String.eqb_spec (fc_name fc) "reply_processed_text") as [Hname|]; [|discriminate].
    destruct (parse_reply E (fc_arguments fc)) as [e'|[s b]] eqn:Hparse; [|discriminate].
    intros [= <-]. now exists fc.
  - now destruct (parse_reply E _) as [e'|[s b]].
Qed.

Lemma normalize_response_raises_only_for_offered_function_witness :
  exists function_call,
    msg_function_call message_bad_arguments = Some function_call
    /\ fc_name function_call = "reply_processed_text"
    /\ parse_reply (sample_env message_bad_arguments true "") (fc_arguments function_call)
       = inl (Exn JSONDecodeError "Expecting value").
Proof.
  apply (@normalize_response_raises_only_for_offered_function
           (sample_env message_bad_arguments true "") message_bad_arguments
           (Exn JSONDecodeError "Expecting value")).
  reflexivity.
Defined.

(** X5.  A reply without a summary segment comes from one of two
    places: a call of a function that was not offered, and then there
    is no body either; or content that did not parse, and then the body
    is the diagnostic message for that content. *)
Theorem normalize_response_without_summary :
  forall (E : Env) (message : Message) (body : option string),
    normalize_response E message = inr (None, body) ->
    (body = None
     /\ exists function_call,
         msg_function_call message = Some function_call
         /\ fc_name function_call <> "reply_processed_text")
    \/ (body = Some (parse_failed (content_of message))
        /\ msg_function_call message = None
        /\ exists e, parse_reply E (content_of message) = inl e).
Proof.
  intros E message body. unfold normalize_response. fold (content_of message).
  destruct (msg_function_call message) as [fc|].
  - destruct (String.eqb_spec (fc_name fc) "reply_processed_text") as [Hname|Hname].
    + now destruct (parse_reply E (fc_arguments fc)) as [e'|[s b]].
    + intros [= <-]. left. split; [reflexivity|]. now exists fc.
  - destruct (parse_reply E (content_of message)) as [e'|[s b]] eqn:Hparse; [|discriminate].
    intros [= <-]. right. repeat split. now exists e'.
Qed.

Lemma normalize_response_without_summary_witness :
  (Some "Parse `content` failed: ```x```" = None
   /\ exists function_call,
       msg_function_call message_padded = Some function_call
       /\ fc_name function_call <> "reply_processed_text")
  \/ (Some "Parse `content` failed: ```x```" = Some (parse_failed (content_of message_padded))
      /\ msg_function_call message_padded = None
      /\ exists e, parse_reply (sample_env message_padded true "")
                               (content_of message_padded) = inl e).
Proof.
  apply (@normalize_response_without_summary (sample_env message_padded true "")
           message_padded (Some "Parse `content` failed: ```x```")).
  reflexivity.
Defined.

(** X6.  A payload that loads as JSON but not as an object (a list, a
    string, a number, [null]) has no [get]: on the branch of the offered
    function the [AttributeError] escapes, on the content branch it is
    caught and the diagnostic message is produced. *)
Theorem normalize_response_non_object :
  forall (E : Env) (message : Message) (text : string) (v : json),
    parsed_text message = Some text ->
    json_loads E text = inr v ->
    is_object v = false ->
    match msg_function_call message with
    | Some _ => exists e, normalize_response E message = inl e
                          /\ exn_kind e = AttributeError
    | None => normalize_response E message = inr (None, Some (parse_failed text))
    end.
Proof.
  intros E message text v Htext Hload Hv.
  rewrite (normalize_response_parsed E _ Htext). unfold parse_reply. rewrite Hload.
  destruct v; try discriminate; cbn [format_reply];
    (destruct (msg_function_call message); [eexists; split; reflexivity | reflexivity]).
Qed.

Lemma normalize_response_non_object_witness :
  normalize_response (env_with_loads (fun _ => inr (JArray []))) message_en_inline
  = inr (None, Some (parse_failed (json_text "S" "en" "T"))).
Proof.
  apply (@normalize_response_non_object (env_with_loads (fun _ => inr (JArray [])))
           message_en_inline (json_text "S" "en" "T") (JArray [])); reflexivity.
Defined.

(** ** What the pipeline spends *)

Lemma fetches_app tr tr' : fetches (tr ++ tr') = fetches tr ++ fetches tr'.
Proof.
  induction tr as [|ev tr IH]; simpl; [reflexivity|].
  destruct ev as [|[] ?| |]; simpl; now rewrite IH.
Qed.

Lemma model_calls_app tr tr' : model_calls (tr ++ tr') = model_calls tr + model_calls tr'.
Proof.
  induction tr as [|ev tr IH]; simpl; [reflexivity|].
  destruct ev as [|[] ?| |]; simpl; now rewrite IH.
Qed.

Lemma own_model_call_counts prompt added :
  Forall (own_event (OpenAIChat prompt)) added ->
  fetches added = [] /\ model_calls added = count_calls added /\ posts added = [].
Proof.
  induction 1 as [|ev added Hev _ (IHf & IHm & IHp)]; [now repeat split|].
  destruct ev as [|c r| |]; simpl in *; try easy. subst c. cbn.
  unfold count_calls in *. simpl. now rewrite IHf, IHm, IHp.
Qed.

Lemma own_post_counts p added :
  Forall (own_event (SlackPost p)) added ->
  fetches added = [] /\ model_calls added = 0 /\ length (posts added) = count_calls added.
Proof.
  induction 1 as [|ev added Hev _ (IHf & IHm & IHp)]; [now repeat split|].
  destruct ev as [|c r| |]; simpl in *; try easy. subst c. cbn.
  unfold count_calls in *. simpl. now rewrite IHf, IHm, IHp.
Qed.

Lemma summarize_event_no_fetch added :
  Forall summarize_event added -> fetches added = [].
Proof.
  induction 1 as [|ev added Hev _ IH]; [reflexivity|].
  destruct ev as [|[] ?| |]; simpl in *; easy.
Qed.

Lemma uses_nothing A (comp : M A) :
  (forall w r w', comp w = (r, w') -> trace w' = trace w) -> uses 0 0 0 comp.
Proof.
  intros H w r w' Hrun. exists []. rewrite app_nil_r. repeat split; eauto.
Qed.

Lemma uses_weaken f m p f' m' p' A (comp : M A) :
  f <= f' -> m <= m' -> p <= p' -> uses f m p comp -> uses f' m' p' comp.
Proof.
  intros Hf Hm Hp H w r w' Hrun. destruct (H _ _ _ Hrun) as (added & Ht & ? & ? & ?).
  exists added. repeat split; auto; lia.
Qed.

Lemma uses_bind f1 m1 p1 f2 m2 p2 A B (comp : M A) (k : A -> M B) :
  uses f1 m1 p1 comp -> (forall a, uses f2 m2 p2 (k a)) ->
  uses (f1 + f2) (m1 + m2) (p1 + p2) (bind comp k).
Proof.
  intros H1 H2 w r w'. unfold bind. destruct (comp w) as [[e|a] w1] eqn:Hrun.
  - intros [= <- <-]. destruct (H1 _ _ _ Hrun) as (added & Ht & ? & ? & ?).
    exists added. repeat split; auto; lia.
  - intros Hrun2. destruct (H1 _ _ _ Hrun) as (added1 & Ht1 & ? & ? & ?).
    destruct (H2 a _ _ _ Hrun2) as (added2 & Ht2 & ? & ? & ?).
    exists (added1 ++ added2). rewrite Ht2, Ht1, app_assoc.
    rewrite fetches_app, model_calls_app, posts_app, !length_app.
    repeat split; auto; lia.
Qed.

Lemma chat_completion_create_uses E prompt : uses 0 3 0 (chat_completion_create E prompt).
Proof.
  intros w r w' Hrun. apply retry_effects in Hrun.
  destruct Hrun as (_ & added & Ht & Hown & Hn & _).
  destruct (own_model_call_counts Hown) as (Hf & Hm & Hp).
  exists added. rewrite Hf, Hm, Hp. repeat split; auto.
Qed.

Lemma chat_post_message_uses E p : uses 0 0 3 (chat_post_message E p).
Proof.
  intros w r w' Hrun. apply retry_effects in Hrun.
  destruct Hrun as (_ & added & Ht & Hown & Hn & _).
  destruct (own_post_counts Hown) as (Hf & Hm & Hp).
  exists added. rewrite Hf, Hm, Hp. repeat split; auto.
Qed.

Lemma post_segment_uses E event segment reply_broadcast :
  uses 0 0 3 (post_segment E event segment reply_broadcast).
Proof.
  unfold post_segment.
  assert (Hret : uses 0 0 3 (@ret unit tt)).
  { eapply uses_weaken; [| | |apply uses_nothing]; try lia. now intros w r w' [= _ <-]. }
  destruct segment as [text|]; [|exact Hret].
  destruct (truthy (Some text)); [|exact Hret].
  apply (@uses_bind 0 0 3 0 0 0); [apply chat_post_message_uses|].
  intros _. apply uses_nothing. now intros w r w' [= _ <-].
Qed.

Lemma summerize_text_uses E event text : uses 0 3 6 (summerize_text E event text).
Proof.
  unfold summerize_text.
  apply (@uses_bind 0 3 0 0 0 6); [apply chat_completion_create_uses|]. intros completion.
  apply (@uses_bind 0 0 0 0 0 6); [apply uses_nothing; now intros w r w' [= _ <-]|].
  intros message.
  apply (@uses_bind 0 0 0 0 0 6); [apply uses_nothing; now intros w r w' [= _ <-]|].
  intros segments.
  apply (@uses_bind 0 0 3 0 0 3); intros; apply post_segment_uses.
Qed.

Lemma process_link_uses E event url : uses 1 3 6 (process_link E event url).
Proof.
  unfold process_link.
  apply (@uses_bind 1 0 0 0 3 6).
  - intros w r w' [= <- <-]. eexists. split; [reflexivity|]. cbn. repeat split; lia.
  - intros response.
    apply (@uses_bind 0 0 0 0 3 6); [apply uses_nothing; now intros w r w' [= _ <-]|].
    intros _. apply summerize_text_uses.
Qed.

(** ** More on the summarize operation *)

Lemma retry_first_success A exceptions n initial_wait backoff_factor call
      (func : Trace -> exn + A) w a :
  func (trace w) = inr a ->
  retry exceptions (S n) initial_wait backoff_factor call func w
  = (inr (Some a), mkWorld (trace w ++ [EvCall call None]) (processed_ids w)).
Proof. intros Hf. unfold retry. now rewrite retry_loop_S, Hf. Qed.

Lemma post_segment_success E event text reply_broadcast w :
  (forall p tr, chat_postMessage E p tr = inr tt) ->
  truthy (Some text) = true ->
  post_segment E event (Some text) reply_broadcast w
  = (inr tt,
     mkWorld (trace w ++ [posted (mkPost (ev_channel event) text (ev_ts event)
                                         reply_broadcast)])
             (processed_ids w)).
Proof.
  intros Hpost Htruthy. unfold post_segment. rewrite Htruthy.
  unfold bind, chat_post_message.
  now rewrite (@retry_first_success _ _ _ _ _ _ _ _ tt) by apply Hpost.
Qed.

(** X7.  When the chat platform accepts the posts, every segment of the
    reply is posted exactly once and in order: the summary with
    [reply_broadcast], then the body without it, both into the thread
    of the event; an absent segment is not posted. *)
Theorem summerize_text_posts_each_segment :
  forall (E : Env) (event : SlackEvent) (text : string) (w w1 : World)
         (completion : option Completion) (message : Message)
         (segments : option string * option string),
    chat_completion_create E (prompt_of text) w = (inr completion, w1) ->
    first_message completion = inr message ->
    normalize_response E message = inr segments ->
    (forall p tr, chat_postMessage E p tr = inr tt) ->
    summerize_text E event text w
    = (inr tt,
       mkWorld (trace w1 ++ map posted (reply_posts event segments)) (processed_ids w1)).
Proof.
  intros E event text w w1 completion message segments Hcall Hmsg Hnorm Hpost.
  destruct (normalize_response_truthy _ _ Hnorm) as (Hs & Hb).
  unfold summerize_text, bind. rewrite Hcall. unfold lift. rewrite Hmsg, Hnorm.
  unfold reply_posts. destruct segments as [[s|] [b|]]; cbn [fst snd] in *.
  - rewrite post_segment_success by auto. cbv beta iota.
    rewrite post_segment_success by auto.
    cbn [trace processed_ids]. now rewrite <- app_assoc.
  - rewrite post_segment_success by auto. reflexivity.
  - unfold post_segment at 1. unfold ret at 1. cbv beta iota.
    rewrite post_segment_success by auto. reflexivity.
  - cbn. rewrite app_nil_r. now destruct w1.
Qed.

Lemma summerize_text_posts_each_segment_witness :
  summerize_text (sample_env message_en_call true "") event_second_link "page"
                 world_initial
  = (inr tt,
     mkWorld (trace (mkWorld [EvCall (OpenAIChat (prompt_of "page")) None]
                             processed_ids_initial)
              ++ map posted
                     (reply_posts event_second_link
                        (Some (nl ++ "*要約*" ++ nl ++ "S" ++ nl)%string,
                         Some (nl ++ "*日本語翻訳*" ++ nl ++ "T" ++ nl)%string)))
             (processed_ids (mkWorld [EvCall (OpenAIChat (prompt_of "page")) None]
                                     processed_ids_initial))).
Proof.
  apply (@summerize_text_posts_each_segment (sample_env message_en_call true "")
           event_second_link "page" world_initial
           (mkWorld [EvCall (OpenAIChat (prompt_of "page")) None] processed_ids_initial)
           (Some (mkCompletion [message_en_call])) message_en_call
           (Some (nl ++ "*要約*" ++ nl ++ "S" ++ nl)%string,
            Some (nl ++ "*日本語翻訳*" ++ nl ++ "T" ++ nl)%string));
    reflexivity.
Defined.

(** X8.  Nothing is posted unless the model call returned a completion
    with a first choice and that choice went through normalization:
    a failed model call, an empty list of choices and an error of the
    normalization all leave the chat untouched. *)
Theorem summerize_text_posts_only_a_reply :
  forall (E : Env) (event : SlackEvent) (text : string) (w w' : World) (r : exn + unit),
    summerize_text E event text w = (r, w') ->
    posts (trace w') <> posts (trace w) ->
    exists completion w1 message segments,
      chat_completion_create E (prompt_of text) w = (inr completion, w1)
      /\ posts (trace w1) = posts (trace w)
      /\ first_message completion = inr message
      /\ normalize_response E message = inr segments.
Proof.
  intros E event text w w' r. unfold summerize_text, bind.
  destruct (chat_completion_create E (prompt_of text) w) as [[e|completion] w1] eqn:Hcall.
  - intros [= <- <-] Hposts. exfalso. apply Hposts.
    apply retry_effects in Hcall. destruct Hcall as (_ & added & -> & Hown & _).
    rewrite posts_app, (posts_of_model_call Hown). apply app_nil_r.
  - assert (Hsame : posts (trace w1) = posts (trace w)).
    { apply retry_effects in Hcall. destruct Hcall as (_ & added & -> & Hown & _).
      rewrite posts_app, (posts_of_model_call Hown). apply app_nil_r. }
    unfold lift. destruct (first_message completion) as [e|message] eqn:Hmsg.
    + intros [= <- <-] Hposts. now rewrite Hsame in Hposts.
    + destruct (normalize_response E message) as [e|segments] eqn:Hnorm.
      * intros [= <- <-] Hposts. now rewrite Hsame in Hposts.
      * intros _ _. now exists completion, w1, message, segments.
Qed.

Lemma summerize_text_posts_only_a_reply_witness :
  exists completion w1 message segments,
    chat_completion_create (sample_env message_en_call true "") (prompt_of "page")
                           world_initial
    = (inr completion, w1)
    /\ posts (trace w1) = posts (trace world_initial)
    /\ first_message completion = inr message
    /\ normalize_response (sample_env message_en_call true "") message = inr segments.
Proof.
  apply (@summerize_text_posts_only_a_reply (sample_env message_en_call true "")
           event_second_link "page" world_initial
           (snd (summerize_text (sample_env message_en_call true "") event_second_link
                                "page" world_initial))
           (fst (summerize_text (sample_env message_en_call true "") event_second_link
                                "page" world_initial))).
  - reflexivity.
  - vm_compute. discriminate.
Defined.

(** X9.  One run of [summerize_text] calls the model at most three
    times and posts at most six times (two segments, three attempts
    each), fetches nothing, acknowledges nothing and leaves the
    deduplication cache as it is, whatever the services answer. *)
Theorem summerize_text_is_bounded :
  forall (E : Env) (event : SlackEvent) (text : string) (w w' : World) (r : exn + unit),
    summerize_text E event text w = (r, w') ->
    processed_ids w' = processed_ids w
    /\ exists added,
        trace w' = trace w ++ added
        /\ Forall summarize_event added
        /\ fetches added = []
        /\ model_calls added <= 3
        /\ length (posts added) <= 6.
Proof.
  intros E event text w w' r Hrun.
  destruct (summerize_text_adds _ _ _ _ Hrun) as (Hc & added & Ht & Hevents).
  destruct (summerize_text_uses _ _ _ _ Hrun) as (added' & Ht' & _ & Hm & Hp).
  rewrite Ht in Ht'. apply app_inv_head in Ht'. subst added'.
  split; [assumption|]. exists added. repeat split; auto.
  now apply summarize_event_no_fetch.
Qed.

Lemma summerize_text_is_bounded_witness :
  processed_ids (snd (summerize_text env_post_fails event_second_link "page" world_initial))
  = processed_ids world_initial
  /\ exists added,
      trace (snd (summerize_text env_post_fails event_second_link "page" world_initial))
      = trace world_initial ++ added
      /\ Forall summarize_event added
      /\ fetches added = []
      /\ model_calls added <= 3
      /\ length (posts added) <= 6.
Proof.
  apply (@summerize_text_is_bounded env_post_fails event_second_link "page" world_initial _
           (fst (summerize_text env_post_fails event_second_link "page" world_initial))).
  reflexivity.
Defined.

(** ** More on links and events *)

(** X10.  A response with an error status (400 to 599) ends the
    processing of the link with a request exception right after the one
    fetch: the model is not called and nothing is posted. *)
Theorem process_link_error_status :
  forall (E : Env) (event : SlackEvent) (url : string) (w : World) (response : Response),
    requests_get E (resolve_link url) (trace w) = inr response ->
    (400 <= status_code response < 600)%Z ->
    exists e,
      process_link E event url w
      = (inl e,
         mkWorld (trace w ++ [EvCall (HttpGet (resolve_link url)) None])
                 (processed_ids w))
      /\ exn_kind e = RequestException.
Proof.
  intros E event url w response Hget Hstatus.
  unfold process_link, bind, await. rewrite Hget. unfold lift, raise_for_status.
  replace ((400 <=? status_code response)%Z && (status_code response <? 600)%Z) with true
    by (symmetry; apply andb_true_iff; split; [apply Z.leb_le|apply Z.ltb_lt]; lia).
  eexists. split; reflexivity.
Qed.

Lemma process_link_error_status_witness :
  exists e,
    process_link (env_with_status 404) event_second_link "https://b.example/" world_initial
    = (inl e,
       mkWorld (trace world_initial
                ++ [EvCall (HttpGet (resolve_link
                                                  "https://b.example/")) None])
               (processed_ids world_initial))
    /\ exn_kind e = RequestException.
Proof.
  apply (@process_link_error_status (env_with_status 404) event_second_link
           "https://b.example/" world_initial (mkResponse 404 "Not Found")).
  - reflexivity.
  - simpl. lia.
Defined.

(** X11.  Whatever happens to a link, it is fetched exactly once, at
    its resolved URL: a failed fetch is not retried, and nothing after
    the fetch fetches again.  The link costs at most three calls to the
    model and six posts, and the cache is not touched. *)
Theorem process_link_fetches_once :
  forall (E : Env) (event : SlackEvent) (url : string) (w w' : World) (r : exn + unit),
    process_link E event url w = (r, w') ->
    fetches (trace w') = fetches (trace w) ++ [resolve_link url]
    /\ model_calls (trace w') <= model_calls (trace w) + 3
    /\ length (posts (trace w')) <= length (posts (trace w)) + 6
    /\ processed_ids w' = processed_ids w.
Proof.
  intros E event url w w' r. unfold process_link, bind, await.
  set (u := resolve_link url).
  set (w0 := mkWorld (trace w ++ [EvCall (HttpGet u) None]) (processed_ids w)).
  assert (Hstop : fetches (trace w0) = fetches (trace w) ++ [u]
                  /\ model_calls (trace w0) = model_calls (trace w)
                  /\ posts (trace w0) = posts (trace w)).
  { subst w0. cbn [trace].
    rewrite fetches_app, model_calls_app, posts_app. cbn.
    now rewrite Nat.add_0_r, app_nil_r. }
  destruct Hstop as (Hf & Hm & Hp).
  destruct (requests_get E u (trace w)) as [e|response].
  - intros [= <- <-]. cbn [trace processed_ids].
    rewrite fetches_app, model_calls_app, posts_app, length_app. cbn. repeat split; lia.
  - fold w0. unfold lift. destruct (raise_for_status response) as [e|[]].
    + intros [= <- <-]. rewrite Hf, Hm, Hp. repeat split; lia.
    + intros Hrun.
      destruct (summerize_text_adds _ _ _ _ Hrun) as (Hc' & added & Ht & Hevents).
      destruct (summerize_text_uses _ _ _ _ Hrun) as (added' & Ht' & _ & Hm' & Hp').
      rewrite Ht in Ht'. apply app_inv_head in Ht'. subst added'.
      rewrite Ht, fetches_app, model_calls_app, posts_app, length_app.
      rewrite (summarize_event_no_fetch Hevents), app_nil_r, Hf, Hm, Hp.
      repeat split; try assumption; lia.
Qed.

Lemma process_link_fetches_once_witness :
  fetches (trace (snd (process_link env_fetch_fails event_two_links "https://a.example/"
                                    world_initial)))
  = fetches (trace world_initial) ++ [resolve_link "https://a.example/"]
  /\ model_calls (trace (snd (process_link env_fetch_fails event_two_links
                                           "https://a.example/" world_initial)))
     <= model_calls (trace world_initial) + 3
  /\ length (posts (trace (snd (process_link env_fetch_fails event_two_links
                                             "https://a.example/" world_initial))))
     <= length (posts (trace world_initial)) + 6
  /\ processed_ids (snd (process_link env_fetch_fails event_two_links "https://a.example/"
                                      world_initial))
     = processed_ids world_initial.
Proof.
  apply (@process_link_fetches_once env_fetch_fails event_two_links "https://a.example/"
           world_initial _
           (fst (process_link env_fetch_fails event_two_links "https://a.example/"
                              world_initial))).
  reflexivity.
Defined.

(** What the handler does to the world, whatever its outcome. *)
Lemma handle_message_events_effects E now event w r w' :
  handle_message_events E now event w = (r, w') ->
  (exists rest, trace w' = trace w ++ EvAck :: rest /\ Forall not_ack rest)
  /\ processed_ids w'
     = if is_not_None (ev_previous_message event) then processed_ids w
       else snd (dedup_gate now (message_id_of event) (processed_ids w)).
Proof.
  rewrite handle_message_events_gate. cbv zeta.
  destruct (is_not_None (ev_previous_message event)).
  - intros [= <- <-]. split; [|reflexivity]. now exists [].
  - unfold dedup_gate. destruct (cache_contains now (processed_ids w) (message_id_of event)).
    + cbn [fst snd]. intros [= <- <-]. split; [|reflexivity]. now exists [].
    + cbn [fst snd trace]. intros Hrun.
      destruct (process_links_adds _ _ _ Hrun) as (Hc & added & Ht & Hevents).
      cbn [trace processed_ids] in *. split; [|assumption].
      exists added. split; [|assumption]. now rewrite Ht, <- app_assoc.
Qed.

(** X12.  The handler acknowledges every event before anything else,
    and once: what it adds to the trace starts with the acknowledgement
    and holds no other, whether the event is a preview, a duplicate, or
    is processed and fails. *)
Theorem handle_message_events_acks_first :
  forall (E : Env) (now : Q) (event : SlackEvent) (w w' : World) (r : exn + unit),
    handle_message_events E now event w = (r, w') ->
    exists rest, trace w' = trace w ++ EvAck :: rest /\ Forall not_ack rest.
Proof.
  intros E now event w w' r Hrun. exact (proj1 (handle_message_events_effects _ _ _ _ Hrun)).
Qed.

Lemma handle_message_events_acks_first_witness :
  exists rest,
    trace (snd (handle_message_events env_fetch_fails (0 # 1) event_two_links world_initial))
    = trace world_initial ++ EvAck :: rest
    /\ Forall not_ack rest.
Proof.
  apply (@handle_message_events_acks_first env_fetch_fails (0 # 1) event_two_links
           world_initial _
           (fst (handle_message_events env_fetch_fails (0 # 1) event_two_links
                                       world_initial))).
  reflexivity.
Defined.

Lemma run_handlers_cache E deliveries :
  forall w,
    processed_ids (run_handlers E deliveries w)
    = run_gates (gate_calls deliveries) (processed_ids w).
Proof.
  induction deliveries as [|[t event] deliveries IH]; intros w; [reflexivity|].
  change (run_handlers E ((t, event) :: deliveries) w)
    with (run_handlers E deliveries (snd (handle_message_events E t event w))).
  rewrite IH.
  destruct (handle_message_events E t event w) as [r w1] eqn:Hrun. cbn [snd].
  destruct (handle_message_events_effects _ _ _ _ Hrun) as (_ & ->).
  unfold gate_calls. cbn [filter fst snd].
  destruct (is_not_None (ev_previous_message event)); reflexivity.
Qed.

Lemma gate_calls_length deliveries : length (gate_calls deliveries) <= length deliveries.
Proof. unfold gate_calls. rewrite length_map. apply filter_length_le. Qed.

Lemma gate_calls_times (t2 : Q) deliveries :
  Forall (fun d => (fst d <= t2)%Q) deliveries ->
  Forall (fun tk => (fst tk <= t2)%Q) (gate_calls deliveries).
Proof.
  intros H. unfold gate_calls. apply Forall_map.
  apply Forall_forall. intros d Hd. apply filter_In in Hd.
  rewrite Forall_forall in H. now apply H.
Qed.

(** X13.  An event is marked before its links are processed and the
    mark stays whatever the outcome.  When the same event is delivered
    again within the TTL of the first delivery, with fewer deliveries
    handled in between than the cache has room for, the handler only
    acknowledges it, even if the first handling ended with an
    exception. *)
Theorem redelivery_is_only_acknowledged :
  forall (E : Env) (t1 t2 : Q) (event : SlackEvent) (w w1 : World) (r : exn + unit)
         (deliveries : list (Q * SlackEvent)),
    is_not_None (ev_previous_message event) = false ->
    cache_contains t1 (processed_ids w) (message_id_of event) = false ->
    handle_message_events E t1 event w = (r, w1) ->
    length deliveries < cache_maxsize (processed_ids w) ->
    Forall (fun d => (fst d <= t2)%Q) deliveries ->
    (t2 < t1 + cache_ttl (processed_ids w))%Q ->
    handle_message_events E t2 event (run_handlers E deliveries w1)
    = (inr tt,
       mkWorld (trace (run_handlers E deliveries w1) ++ [EvAck])
               (processed_ids (run_handlers E deliveries w1))).
Proof.
  intros E t1 t2 event w w1 r deliveries Hprev Hnew Hrun Hlen Htimes Ht.
  destruct (handle_message_events_effects _ _ _ _ Hrun) as (_ & Hcache).
  rewrite Hprev in Hcache. unfold dedup_gate in Hcache. rewrite Hnew in Hcache.
  cbn [snd] in Hcache.
  assert (Hkey : holds_key (message_id_of event) (t1 + cache_ttl (processed_ids w))%Q
                           (0 + length (gate_calls deliveries))
                           (cache_links (processed_ids (run_handlers E deliveries w1)))).
  { rewrite run_handlers_cache, Hcache.
    apply (@run_gates_keeps t2 _ _ Ht).
    - apply cache_setitem_holds.
    - now apply gate_calls_times.
    - cbn [cache_setitem cache_maxsize]. pose proof (gate_calls_length deliveries). lia. }
  rewrite handle_message_events_gate. cbv zeta. rewrite Hprev. unfold dedup_gate.
  now rewrite (holds_key_contains _ Hkey Ht).
Qed.

Lemma redelivery_is_only_acknowledged_witness :
  handle_message_events env_fetch_fails (2 # 1) event_two_links
    (run_handlers env_fetch_fails [((1 # 1)%Q, event_without_links)]
       (snd (handle_message_events env_fetch_fails (0 # 1) event_two_links world_initial)))
  = (inr tt,
     mkWorld (trace (run_handlers env_fetch_fails [((1 # 1)%Q, event_without_links)]
                       (snd (handle_message_events env_fetch_fails (0 # 1)
                                                   event_two_links world_initial)))
              ++ [EvAck])
             (processed_ids
                (run_handlers env_fetch_fails [((1 # 1)%Q, event_without_links)]
                   (snd (handle_message_events env_fetch_fails (0 # 1)
                                               event_two_links world_initial))))).
Proof.
  apply (@redelivery_is_only_acknowledged env_fetch_fails (0 # 1) (2 # 1) event_two_links
           world_initial _
           (fst (handle_message_events env_fetch_fails (0 # 1) event_two_links
                                       world_initial))
           [((1 # 1)%Q, event_without_links)]).
  - reflexivity.
  - reflexivity.
  - reflexivity.
  - simpl. lia.
  - repeat constructor. discriminate.
  - reflexivity.
Defined.

Lemma for_each_skips_other_items E event xs w :
  Forall (fun item => is_link item = false) xs ->
  for_each xs (process_item E event) w = (inr tt, w).
Proof.
  induction 1 as [|item xs Hitem _ IH]; [reflexivity|].
  cbn [for_each]. unfold bind, process_item. unfold is_link in Hitem. now rewrite Hitem.
Qed.

(** X14.  An event that holds no link item is acknowledged and marked,
    and that is all: no fetch, no call to the model, no post, and the
    handler returns normally. *)
Theorem event_without_links_calls_nothing :
  forall (E : Env) (now : Q) (event : SlackEvent) (w : World),
    Forall (fun item => is_link item = false) (items_of event) ->
    handle_message_events E now event w
    = (inr tt,
       mkWorld (trace w ++ [EvAck])
               (if is_not_None (ev_previous_message event) then processed_ids w
                else snd (dedup_gate now (message_id_of event) (processed_ids w)))).
Proof.
  intros E now event w Hitems. rewrite handle_message_events_gate. cbv zeta.
  destruct (is_not_None (ev_previous_message event)); [reflexivity|].
  unfold dedup_gate. destruct (cache_contains now (processed_ids w) (message_id_of event));
    cbn [fst snd]; [reflexivity|].
  now rewrite process_links_items, for_each_skips_other_items.
Qed.

Lemma event_without_links_calls_nothing_witness :
  handle_message_events env_fetch_fails (0 # 1) event_without_links world_initial
  = (inr tt,
     mkWorld (trace world_initial ++ [EvAck])
             (if is_not_None (ev_previous_message event_without_links)
              then processed_ids world_initial
              else snd (dedup_gate (0 # 1) (message_id_of event_without_links)
                                   (processed_ids world_initial)))).
Proof.
  apply (@event_without_links_calls_nothing env_fetch_fails (0 # 1) event_without_links
           world_initial).
  repeat constructor.
Defined.

Lemma for_each_items_uses E event xs :
  uses (length (filter is_link xs)) (3 * length (filter is_link xs))
       (6 * length (filter is_link xs))
       (for_each xs (process_item E event)).
Proof.
  induction xs as [|item xs IH]; cbn [for_each filter].
  - apply uses_nothing. now intros w r w' [= _ <-].
  - unfold process_item at 1. fold (is_link item). destruct (is_link item).
    + eapply uses_weaken; [| | |apply (@uses_bind 1 3 6); [|intros; apply IH]];
        try (cbn [length]; lia).
      destruct (item_url item); [apply process_link_uses|].
      eapply uses_weaken; [| | |apply uses_nothing]; try lia. now intros w r w' [= _ <-].
    + apply (@uses_bind 0 0 0); [|intros; apply IH].
      apply uses_nothing. now intros w r w' [= _ <-].
Qed.

(** X15.  Handling one event costs at most one fetch, three calls to
    the model and six posts for each link item it holds, whatever the
    services answer. *)
Theorem handle_message_events_is_bounded :
  forall (E : Env) (now : Q) (event : SlackEvent) (w w' : World) (r : exn + unit),
    handle_message_events E now event w = (r, w') ->
    length (fetches (trace w')) <= length (fetches (trace w)) + link_count event
    /\ model_calls (trace w') <= model_calls (trace w) + 3 * link_count event
    /\ length (posts (trace w')) <= length (posts (trace w)) + 6 * link_count event.
Proof.
  intros E now event w w' r. rewrite handle_message_events_gate. cbv zeta.
  assert (Hack : fetches (trace w ++ [EvAck]) = fetches (trace w)
                 /\ model_calls (trace w ++ [EvAck]) = model_calls (trace w)
                 /\ posts (trace w ++ [EvAck]) = posts (trace w)).
  { rewrite fetches_app, model_calls_app, posts_app. cbn.
    now rewrite Nat.add_0_r, !app_nil_r. }
  destruct Hack as (Hf0 & Hm0 & Hp0).
  destruct (is_not_None (ev_previous_message event)).
  - intros [= <- <-]. cbn [trace]. rewrite Hf0, Hm0, Hp0. repeat split; lia.
  - destruct (fst (dedup_gate now (message_id_of event) (processed_ids w))).
    + rewrite process_links_items. intros Hrun.
      pose proof (@for_each_items_uses E event (items_of event)) as Huses.
      destruct (Huses _ _ _ Hrun) as (added & Ht & Hf & Hm & Hp).
      fold (link_count event) in Hf, Hm, Hp. cbn [trace] in Ht.
      rewrite Ht, fetches_app, model_calls_app, posts_app, !length_app, Hf0, Hm0, Hp0.
      repeat split; lia.
    + intros [= <- <-]. cbn [trace]. rewrite Hf0, Hm0, Hp0. repeat split; lia.
Qed.

Lemma handle_message_events_is_bounded_witness :
  length (fetches (trace (snd (handle_message_events env_post_fails (0 # 1)
                                 event_two_links world_initial))))
  <= length (fetches (trace world_initial)) + link_count event_two_links
  /\ model_calls (trace (snd (handle_message_events env_post_fails (0 # 1)
                                event_two_links world_initial)))
     <= model_calls (trace world_initial) + 3 * link_count event_two_links
  /\ length (posts (trace (snd (handle_message_events env_post_fails (0 # 1)
                                  event_two_links world_initial))))
     <= length (posts (trace world_initial)) + 6 * link_count event_two_links.
Proof.
  apply (@handle_message_events_is_bounded env_post_fails (0 # 1) event_two_links
           world_initial _
           (fst (handle_message_events env_post_fails (0 # 1) event_two_links
                                       world_initial))).
  reflexivity.
Defined.

(** ** The dedup key *)

Lemma append_char_injective (c : ascii) (a b x y : string) :
  has_char c a = false ->
  has_char c b = false ->
  (a ++ String c x)%string = (b ++ String c y)%string ->
  a = b /\ x = y.
Proof.
  revert b. induction a as [|a0 a IH]; intros [|b0 b]; cbn; intros Ha Hb Heq.
  - now injection Heq as ->.
  - injection Heq as <- _. now rewrite Ascii.eqb_refl in Hb.
  - injection Heq as -> _. now rewrite Ascii.eqb_refl in Ha.
  - apply orb_false_iff in Ha, Hb. injection Heq as <- Heq.
    destruct (IH b (proj2 Ha) (proj2 Hb) Heq) as [-> ->]. now split.
Qed.

(** X16.  The dedup key [channel + "." + event_ts] tells events apart
    as long as channel identifiers hold no dot: two events with the
    same key then have the same channel and the same event timestamp. *)
Theorem message_id_of_injective :
  forall (event1 event2 : SlackEvent),
    has_char "." (ev_channel event1) = false ->
    has_char "." (ev_channel event2) = false ->
    message_id_of event1 = message_id_of event2 ->
    ev_channel event1 = ev_channel event2
    /\ ev_event_ts event1 = ev_event_ts event2.
Proof.
  intros event1 event2 H1 H2 Heq. unfold message_id_of in Heq.
  now apply (@append_char_injective "."%char).
Qed.

Lemma message_id_of_injective_witness :
  ev_channel event_two_links = ev_channel event_second_link
  /\ ev_event_ts event_two_links = ev_event_ts event_second_link.
Proof.
  apply (@message_id_of_injective event_two_links event_second_link); reflexivity.
Defined.

(** Without the condition the key is ambiguous: these two events differ
    in channel and in timestamp and have one key. *)
Example message_id_of_collision :
  message_id_of (mkSlackEvent None "C1.2" "3" "3" [])
  = message_id_of (mkSlackEvent None "C1" "2.3" "2.3" []).
Proof. reflexivity. Qed.

(** ** More on the deduplication cache *)

Lemma link_expires_In l k e : link_expires l k = Some e -> In (k, e) l.
Proof.
  induction l as [|[k' t] l IH]; cbn; [discriminate|].
  destruct (String.eqb_spec k' k) as [->|_].
  - intros [= ->]. now left.
  - intros H. right. now apply IH.
Qed.

Lemma expire_incl now l x : In x (expire now l) -> In x l.
Proof.
  induction l as [|[k t] l IH]; cbn; [auto|].
  destruct (Qlt_bool now t); [auto|]. intros H. right. now apply IH.
Qed.

Lemma skipn_incl {X} n (l : list X) x : In x (skipn n l) -> In x l.
Proof.
  revert l. induction n as [|n IH]; intros [|y l]; cbn; auto.
Qed.

Lemma unlink_incl key l x : In x (unlink key l) -> In x l.
Proof. unfold unlink. intros H. now apply filter_In in H. Qed.

(** What [cache_setitem] keeps comes from the old entries. *)
Lemma cache_setitem_entries now c key x :
  In x (cache_links (cache_setitem now c key)) ->
  In x (cache_links c) \/ x = (key, (now + cache_ttl c)%Q).
Proof.
  unfold cache_setitem. cbn [cache_links]. rewrite in_app_iff.
  intros [H|[H|[]]]; [left|right; now symmetry].
  apply unlink_incl in H. destruct (link_expires (expire now (cache_links c)) key).
  - now apply expire_incl in H.
  - apply skipn_incl in H. now apply expire_incl in H.
Qed.

Lemma run_gates_cons t k calls c :
  run_gates ((t, k) :: calls) c = run_gates calls (snd (dedup_gate t k c)).
Proof. reflexivity. Qed.

Lemma run_gates_keys calls :
  forall c k,
    In k (map fst (cache_links (run_gates calls c))) ->
    In k (map fst (cache_links c)) \/ In k (map snd calls).
Proof.
  induction calls as [|[t k'] calls IH]; intros c k; [now left|].
  rewrite run_gates_cons. intros H. apply IH in H. cbn [map fst snd].
  destruct H as [H|H]; [|now right; right].
  unfold dedup_gate in H. destruct (cache_contains t c k'); cbn [snd] in H; [now left|].
  apply in_map_iff in H. destruct H as (x & <- & H).
  apply cache_setitem_entries in H. destruct H as [H| ->].
  - left. now apply in_map.
  - right. now left.
Qed.

(** X17.  The gate holds back only what it has seen: when it refuses a
    key after a run of gate calls, the key was in the cache at the start
    or is the key of one of these calls.  From the empty cache of the
    program, an event is refused only if its key came before. *)
Theorem dedup_gate_refuses_only_seen_keys :
  forall (calls : list (Q * string)) (c : TTLCache) (now : Q) (k : string),
    fst (dedup_gate now k (run_gates calls c)) = false ->
    In k (map fst (cache_links c)) \/ In k (map snd calls).
Proof.
  intros calls c now k. unfold dedup_gate.
  destruct (cache_contains now (run_gates calls c) k) eqn:Hin; [|discriminate]. intros _.
  apply run_gates_keys. unfold cache_contains in Hin.
  destruct (link_expires (cache_links (run_gates calls c)) k) as [e|] eqn:He; [|discriminate].
  apply link_expires_In in He. now apply (in_map fst) in He.
Qed.

Lemma dedup_gate_refuses_only_seen_keys_witness :
  In duplicate_key (map fst (cache_links processed_ids_initial))
  \/ In duplicate_key (map snd [((0 # 1)%Q, duplicate_key)]).
Proof.
  apply (@dedup_gate_refuses_only_seen_keys [((0 # 1)%Q, duplicate_key)]
           processed_ids_initial (1 # 1) duplicate_key).
  reflexivity.
Defined.

Lemma Forall_expire P now l : Forall P l -> Forall P (expire now l).
Proof.
  intros H. apply Forall_forall. intros x Hx. apply expire_incl in Hx.
  revert x Hx. now apply Forall_forall.
Qed.

Lemma expires_by_setitem_other key bound now c k' :
  k' <> key ->
  expires_by key bound (cache_links c) ->
  expires_by key bound (cache_links (cache_setitem now c k')).
Proof.
  unfold expires_by. intros Hne H. apply Forall_forall. intros x Hx.
  apply cache_setitem_entries in Hx. destruct Hx as [Hx| ->].
  - rewrite Forall_forall in H. now apply H.
  - cbn. intros Hk. now elim Hne.
Qed.

Lemma expires_by_setitem_same key now c :
  expires_by key (now + cache_ttl c)%Q (cache_links (cache_setitem now c key)).
Proof.
  unfold cache_setitem, expires_by. cbn [cache_links]. apply Forall_app. split.
  - apply Forall_forall. intros [k t] Hx. unfold unlink in Hx. apply filter_In in Hx.
    destruct Hx as (_ & Hne). cbn in *. intros ->. now rewrite String.eqb_refl in Hne.
  - repeat constructor. cbn. intros _. apply Qle_refl.
Qed.

Lemma run_gates_expires_by key bound calls :
  forall c,
    Forall (fun tk => snd tk <> key) calls ->
    expires_by key bound (cache_links c) ->
    expires_by key bound (cache_links (run_gates calls c)).
Proof.
  induction calls as [|[t k'] calls IH]; intros c Hcalls H; [assumption|].
  rewrite run_gates_cons. inversion Hcalls as [|? ? Hne Hcalls']; subst. cbn in Hne.
  apply IH; [assumption|]. unfold dedup_gate.
  destruct (cache_contains t c k'); cbn [snd]; [assumption|].
  now apply expires_by_setitem_other.
Qed.

(** X18.  Suppression ends with the TTL: once the TTL of the first
    delivery has elapsed, the same key passes the gate again, whatever
    other keys went through the gate in between. *)
Theorem dedup_gate_readmits_after_ttl :
  forall (c : TTLCache) (k : string) (t1 t2 : Q) (between : list (Q * string)),
    fst (dedup_gate t1 k c) = true ->
    Forall (fun tk => snd tk <> k) between ->
    (t1 + cache_ttl c <= t2)%Q ->
    fst (dedup_gate t2 k (run_gates between (snd (dedup_gate t1 k c)))) = true.
Proof.
  intros c k t1 t2 between Hgo Hother Ht.
  assert (Hmark : expires_by k (t1 + cache_ttl c)%Q (cache_links (snd (dedup_gate t1 k c)))).
  { unfold dedup_gate in *. destruct (cache_contains t1 c k); [discriminate|].
    apply expires_by_setitem_same. }
  pose proof (@run_gates_expires_by k _ between _ Hother Hmark) as Hinv.
  unfold dedup_gate at 1. unfold cache_contains.
  destruct (link_expires (cache_links (run_gates between (snd (dedup_gate t1 k c)))) k)
    as [e|] eqn:He; [|reflexivity].
  apply link_expires_In in He. unfold expires_by in Hinv.
  pose proof (proj1 (Forall_forall _ _) Hinv _ He eq_refl) as Hle. cbn in Hle.
  destruct (Qlt_bool t2 e) eqn:Hlt; [|reflexivity].
  apply Qlt_bool_true in Hlt. exfalso.
  apply (Qlt_irrefl t2). eapply Qlt_le_trans; [eassumption|]. eapply Qle_trans; eassumption.
Qed.

Lemma dedup_gate_readmits_after_ttl_witness :
  fst (dedup_gate (60 # 1) duplicate_key
         (run_gates (other_keys 3)
            (snd (dedup_gate (0 # 1) duplicate_key processed_ids_initial)))) = true.
Proof.
  apply (@dedup_gate_readmits_after_ttl processed_ids_initial duplicate_key
           (0 # 1) (60 # 1) (other_keys 3)).
  - reflexivity.
  - repeat constructor; discriminate.
  - discriminate.
Defined.

Lemma expire_length now l : length (expire now l) <= length l.
Proof.
  induction l as [|[k t] l IH]; cbn; [lia|]. destruct (Qlt_bool now t); cbn; lia.
Qed.

Lemma unlink_present_length key l e :
  link_expires l key = Some e -> S (length (unlink key l)) <= length l.
Proof.
  induction l as [|[k t] l IH]; cbn; [discriminate|].
  pose proof (unlink_length key l) as Hu. unfold unlink in *.
  destruct (String.eqb k key); cbn.
  - intros _. lia.
  - intros H. apply IH in H. lia.
Qed.

Lemma cache_setitem_length now c key :
  1 <= cache_maxsize c ->
  length (cache_links c) <= cache_maxsize c ->
  length (cache_links (cache_setitem now c key)) <= cache_maxsize c.
Proof.
  intros Hmax Hlen. unfold cache_setitem. cbn [cache_links].
  rewrite length_app. cbn [length].
  pose proof (expire_length now (cache_links c)) as Hexp.
  destruct (link_expires (expire now (cache_links c)) key) as [e|] eqn:He.
  - apply unlink_present_length in He. lia.
  - pose proof (unlink_length key
                  (skipn (length (expire now (cache_links c)) + 1 - cache_maxsize c)
                         (expire now (cache_links c)))) as Hun.
    rewrite length_skipn in Hun. lia.
Qed.

(** X19.  The cache never outgrows its bound: from a cache within its
    capacity, any run of gate calls leaves at most [maxsize] entries,
    a hundred for the cache of the program. *)
Theorem run_gates_within_capacity :
  forall (calls : list (Q * string)) (c : TTLCache),
    1 <= cache_maxsize c ->
    length (cache_links c) <= cache_maxsize c ->
    cache_maxsize (run_gates calls c) = cache_maxsize c
    /\ length (cache_links (run_gates calls c)) <= cache_maxsize c.
Proof.
  induction calls as [|[t k] calls IH]; intros c Hmax Hlen; [now split|].
  rewrite run_gates_cons.
  assert (Hstep : cache_maxsize (snd (dedup_gate t k c)) = cache_maxsize c
                  /\ length (cache_links (snd (dedup_gate t k c))) <= cache_maxsize c).
  { unfold dedup_gate. destruct (cache_contains t c k); cbn [snd]; [now split|].
    split; [reflexivity|]. now apply cache_setitem_length. }
  destruct Hstep as (Hm & Hl).
  destruct (IH (snd (dedup_gate t k c))) as (Hm' & Hl'); rewrite ?Hm; auto.
  split; congruence.
Qed.

Lemma run_gates_within_capacity_witness :
  cache_maxsize (run_gates (other_keys 150) processed_ids_initial)
  = cache_maxsize processed_ids_initial
  /\ length (cache_links (run_gates (other_keys 150) processed_ids_initial))
     <= cache_maxsize processed_ids_initial.
Proof.
  apply (@run_gates_within_capacity (other_keys 150) processed_ids_initial).
  - simpl. lia.
  - simpl. lia.
Defined.

(** ** The prompt and the content *)

Lemma unlines_app ls ls' : unlines (ls ++ ls') = (unlines ls ++ unlines ls')%string.
Proof.
  unfold unlines. induction ls as [|l ls IH]; cbn [app fold_right]; [reflexivity|].
  now rewrite IH, !string_app_assoc.
Qed.

(** X20.  The prompt is one fixed instruction text followed by the page
    text as it is, neither cut nor escaped, and two newlines. *)
Theorem prompt_of_embeds_text :
  exists head : string,
    forall text : string,
      prompt_of text = (head ++ text ++ nl ++ nl)%string
      /\ substring_of text (prompt_of text) = true.
Proof.
  exists (unlines
            [ "### タスク"; "";
              "あなたはWebページの要約&翻訳のプロフェッショナルです。"; "";
              "- 与えられたHTMLテキストを要約してください。";
              "  - 短すぎるのはダメです。";
              "  - 省略しすぎないでください。";
              "- 本文が日本語以外の場合は日本語に翻訳してください。";
              "  - ただし1000文字を超える部分は省略してください。";
              "- 要約・翻訳した本文以外のテキストは含めないでください。";
              ""; ""; "### 返答フォーマット(JSON)"; ""; "{";
              format_field "summary" "要約したWebページの内容";
              format_field "language" "ISO 639-1 で表されるWebページ本文の言語";
              format_field "body_translated"
                "日本語に翻訳されたWebページ本文（日本語以外の言語の場合のみ）";
              "}"; ""; ""; "### 要約すべき内容"; "" ]).
  intros text.
  match goal with |- prompt_of text = (unlines ?h ++ _)%string /\ _ =>
    assert (Heq : prompt_of text = (unlines h ++ text ++ nl ++ nl)%string)
  end.
  { unfold prompt_of.
    match goal with |- _ = (unlines ?h ++ _)%string =>
      change (unlines (h ++ [text; ""]) = (unlines h ++ text ++ nl ++ nl)%string)
    end.
    rewrite unlines_app. reflexivity. }
  split; [exact Heq|]. rewrite Heq. apply substring_of_app.
Qed.

Lemma drop_space_suffix fwd :
  forall n s, String.length s <= n -> exists pre, s = (pre ++ drop_space fwd s)%string.
Proof.
  induction n as [|n IH]; intros s Hn.
  - destruct s; [now exists ""|cbn in Hn; lia].
  - destruct s as [|a s1]; [now exists ""|]. cbn [drop_space]. cbn in Hn.
    destruct (space1 (nat_of_ascii a)).
    { destruct (IH s1) as [pre Hpre]; [lia|]. exists (String a pre). cbn. now rewrite <- Hpre. }
    destruct s1 as [|b s2]; [now exists ""|]. cbn in Hn.
    destruct (if fwd then space2 (nat_of_ascii a) (nat_of_ascii b)
              else space2 (nat_of_ascii b) (nat_of_ascii a)).
    { destruct (IH s2) as [pre Hpre]; [lia|]. exists (String a (String b pre)).
      cbn. now rewrite <- Hpre. }
    destruct s2 as [|c s3]; [now exists ""|]. cbn in Hn.
    destruct (if fwd then space3 (nat_of_ascii a) (nat_of_ascii b) (nat_of_ascii c)
              else space3 (nat_of_ascii c) (nat_of_ascii b) (nat_of_ascii a)).
    { destruct (IH s3) as [pre Hpre]; [lia|]. exists (String a (String b (String c pre))).
      cbn. now rewrite <- Hpre. }
    now exists "".
Qed.

Lemma list_ascii_of_string_app (a b : string) :
  list_ascii_of_string (a ++ b) = list_ascii_of_string a ++ list_ascii_of_string b.
Proof. induction a as [|x a IH]; cbn; [reflexivity|]. now rewrite IH. Qed.

Lemma string_of_list_ascii_app (l l' : list ascii) :
  string_of_list_ascii (l ++ l') = (string_of_list_ascii l ++ string_of_list_ascii l')%string.
Proof. induction l as [|x l IH]; cbn; [reflexivity|]. now rewrite IH. Qed.

Lemma string_rev_app (a b : string) :
  string_rev (a ++ b) = (string_rev b ++ string_rev a)%string.
Proof.
  unfold string_rev. now rewrite list_ascii_of_string_app, rev_app_distr, string_of_list_ascii_app.
Qed.

Lemma string_rev_involutive (s : string) : string_rev (string_rev s) = s.
Proof.
  unfold string_rev.
  now rewrite list_ascii_of_string_of_list_ascii, rev_involutive, string_of_list_ascii_of_string.
Qed.

Lemma string_length_app (a b : string) :
  String.length (a ++ b) = String.length a + String.length b.
Proof. induction a as [|x a IH]; cbn; [reflexivity|]. now rewrite IH. Qed.

(** [strip] takes characters away at both ends and nowhere else. *)
Lemma strip_is_part (s : string) : exists pre post, s = (pre ++ strip s ++ post)%string.
Proof.
  unfold strip.
  destruct (@drop_space_suffix true (String.length s) s (le_n _)) as [pre Hpre].
  set (d := drop_space true s) in *.
  destruct (@drop_space_suffix false (String.length (string_rev d)) (string_rev d) (le_n _))
    as [pre' Hpre'].
  exists pre, (string_rev pre').
  rewrite <- string_rev_app, <- Hpre', string_rev_involutive. exact Hpre.
Qed.

(** X21.  What is parsed and echoed is a contiguous part of what the
    model sent: a content that is not empty is its stripped form with
    something before and something after it, so that stripping never
    rewrites the middle of the content. *)
Theorem content_of_is_part_of_content :
  forall (message : Message) (raw : string),
    msg_content message = Some raw ->
    raw <> "" ->
    exists pre post,
      raw = (pre ++ content_of message ++ post)%string
      /\ String.length (content_of message) <= String.length raw.
Proof.
  intros message raw Hraw Hne. unfold content_of. rewrite Hraw.
  assert (Hor : or_default (Some raw) "???" = raw) by (destruct raw; [now elim Hne|reflexivity]).
  rewrite Hor. destruct (strip_is_part raw) as (pre & post & Heq).
  exists pre, post. split; [assumption|].
  rewrite Heq at 2. rewrite !string_length_app. lia.
Qed.

Lemma content_of_is_part_of_content_witness :
  exists pre post,
    " x" = (pre ++ content_of message_padded ++ post)%string
    /\ String.length (content_of message_padded) <= String.length " x".
Proof.
  apply (@content_of_is_part_of_content message_padded " x").
  - reflexivity.
  - discriminate.
Defined.

(** ** Missing members of the reply *)

(** X22.  [format_reply] on an object with members missing: without
    [summary] the summary segment is rendered with "???"; without
    [body_translated] there is no body, whatever the language; without
    [language] a translated body counts as a translation and is
    rendered. *)
Theorem format_reply_missing_members :
  forall (E : Env) (d : list (string * json)),
    exists summary body,
      format_reply E (JObject d) = inr (summary, body)
      /\ (dict_get d "summary" = None ->
          summary = (nl ++ "*要約*" ++ nl ++ "???" ++ nl)%string)
      /\ (dict_get d "body_translated" = None -> body = None)
      /\ (forall T,
             dict_get d "language" = None ->
             dict_get d "body_translated" = Some (JString T) ->
             body = Some (nl ++ "*日本語翻訳*" ++ nl ++ T ++ nl)%string).
Proof.
  intros E d. cbn [format_reply]. eexists _, _. split; [reflexivity|]. repeat split.
  - intros Hs. unfold get_or_unknown. now rewrite Hs.
  - intros Hb. unfold dict_has. rewrite Hb. now rewrite andb_false_r.
  - intros T Hl Hb. unfold dict_has, get_or_unknown. now rewrite Hl, Hb.
Qed.

Lemma format_reply_missing_members_witness :
  exists summary body,
    format_reply (sample_env message_en_call true "")
                 (JObject [("body_translated", JString "T")])
    = inr (summary, body)
    /\ summary = (nl ++ "*要約*" ++ nl ++ "???" ++ nl)%string
    /\ body = Some (nl ++ "*日本語翻訳*" ++ nl ++ "T" ++ nl)%string.
Proof.
  destruct (@format_reply_missing_members (sample_env message_en_call true "")
              [("body_translated", JString "T")])
    as (summary & body & Heq & Hs & _ & Hb).
  exists summary, body. split; [exact Heq|]. split.
  - apply Hs. reflexivity.
  - apply (Hb "T"); reflexivity.
Defined.
